(** * Slot reservation: hold / release protocol of the booking flow

    Shallow embedding of the slot reservation code of the marketplace
    application:

    - the [useProviderAvailability] hook ([getAvailableSlots], [holdSlot],
      [releaseSlot]),
    - the [TimeSelection] page handlers ([fetchAvailableSlots],
      [handleSlotSelect], [handleProceedToPayment], [handleSlotExpired]) and
      the [expiresAt] prop it hands to the countdown timer,
    - the [verify-payment] edge function.

    Timestamps are [Date] values in milliseconds ([Z]); the ISO strings the
    source writes into [hold_expires_at] are kept as the millisecond value
    they print.  Calendar dates (the [YYYY-MM-DD] strings) are kept as day
    numbers, so that [setDate (getDate () + 14)] is [+ 14]. *)

From Stdlib Require Import ZArith List String Bool Lia.
From Stdlib Require Import Sorting.Sorted Sorting.Permutation.
Import ListNotations.
Local Open Scope string_scope.
Local Open Scope Z_scope.

(* ------------------------------------------------------------------ *)
(** ** Data model *)

(** [status: 'available' | 'held' | 'booked' | 'blocked'] *)
Inductive SlotStatus : Type := available | held | booked | blocked.

Definition status_eqb (a b : SlotStatus) : bool :=
  match a, b with
  | available, available | held, held | booked, booked | blocked, blocked => true
  | _, _ => false
  end.

(** One row of the [booking_slots] table, with the columns the reservation
    code reads or writes.  [display_order] is the [time_slot.display_order]
    of the joined time-slot template, the key the query orders by. *)
Record BookingSlot : Type := mkSlot {
  id : string;
  provider_id : string;
  date : Z;
  display_order : Z;
  status : SlotStatus;
  held_by : option string;
  hold_expires_at : option Z;
  booking_id : option string
}.

(** The column values an [update] call writes. *)
Record Patch : Type := mkPatch {
  set_status : SlotStatus;
  set_held_by : option string;
  set_hold_expires_at : option Z
}.

(** The [.eq(column, value)] filters the code chains on a request. *)
Inductive Filter : Type :=
| eq_id (v : string)
| eq_provider_id (v : string)
| eq_date (v : Z)
| eq_status (v : SlotStatus)
| eq_held_by (v : string).

(** What the pages and the hook do that is visible from outside. *)
Inductive Event : Type :=
| ev_select (fs : list Filter)
| ev_update (p : Patch) (fs : list Filter)
| ev_rpc (fn : string) (p_provider_id : string) (p_start_date p_end_date : Z)
| ev_console_error (msg : string)
| ev_toast (title : string)
| ev_navigate (path : string) (slot : BookingSlot).

(** The environment of the page: the table, the clock read by [Date.now()],
    the schedule of transient store failures (one flag per request, [true]
    for a request that comes back with an [error]), and the trace. *)
Record World : Type := mkWorld {
  rows : list BookingSlot;
  now : Z;
  faults : list bool;
  log : list Event
}.

(** React state and props of the [TimeSelection] page. *)
Record Client : Type := mkClient {
  user : option string;
  providerId : option string;
  selectedDate : option Z;
  availableSlots : list BookingSlot;
  selectedSlot : option BookingSlot;
  heldSlot : option BookingSlot;
  loading : bool
}.

Record App : Type := mkApp { client : Client; world : World }.

(* ------------------------------------------------------------------ *)
(** ** The Slot Store *)

Definition opt_string_is (o : option string) (v : string) : bool :=
  match o with
  | Some s => String.eqb s v
  | None => false
  end.

(** A filter on a nullable column never matches a null. *)
Definition matches (f : Filter) (r : BookingSlot) : bool :=
  match f with
  | eq_id v => String.eqb (id r) v
  | eq_provider_id v => String.eqb (provider_id r) v
  | eq_date v => Z.eqb (date r) v
  | eq_status v => status_eqb (status r) v
  | eq_held_by v => opt_string_is (held_by r) v
  end.

Definition matches_all (fs : list Filter) (r : BookingSlot) : bool :=
  forallb (fun f => matches f r) fs.

Definition apply_patch (p : Patch) (r : BookingSlot) : BookingSlot :=
  {| id := id r;
     provider_id := provider_id r;
     date := date r;
     display_order := display_order r;
     status := set_status p;
     held_by := set_held_by p;
     hold_expires_at := set_hold_expires_at p;
     booking_id := booking_id r |}.

(** Modelled from the spec: the Slot Store is an external collaborator (the
    hosted database behind [supabase.from('booking_slots')]); its conditional
    update is atomic and rewrites exactly the records that satisfy the
    predicate at the time of the update.  A request whose predicate selects
    no record is served without error. *)
Definition update_rows (p : Patch) (fs : list Filter) (rs : list BookingSlot)
  : list BookingSlot :=
  map (fun r => if matches_all fs r then apply_patch p r else r) rs.

(** Number of records a conditional update rewrites. *)
Definition affected (fs : list Filter) (rs : list BookingSlot) : nat :=
  List.length (filter (matches_all fs) rs).

Fixpoint insert_by_order (r : BookingSlot) (rs : list BookingSlot)
  : list BookingSlot :=
  match rs with
  | [] => [r]
  | x :: rest =>
      if display_order r <? display_order x then r :: x :: rest
      else x :: insert_by_order r rest
  end.

(** [.order('time_slot.display_order')]: ascending, ties in table order. *)
Definition order_by_display_order (rs : list BookingSlot) : list BookingSlot :=
  fold_right insert_by_order [] rs.

(** Modelled from the spec: the Slot Store read, filtered by the chained
    predicates and ordered by the time-of-day key. *)
Definition select_rows (fs : list Filter) (rs : list BookingSlot)
  : list BookingSlot :=
  order_by_display_order (filter (matches_all fs) rs).

(** The [{ data, error }] pair every request resolves to. *)
Record Response (A : Type) : Type := mkResponse {
  data : option A;
  error : option string
}.
Arguments mkResponse {A} _ _.
Arguments data {A} _.
Arguments error {A} _.

(* ------------------------------------------------------------------ *)
(** ** Effects: state threaded through [await]s, with [throw] / [catch] *)

Inductive Outcome (A : Type) : Type :=
| Ok (a : A)
| Thrown (e : string).
Arguments Ok {A} _.
Arguments Thrown {A} _.

Module Eff.

Definition M (A : Type) : Type := App -> Outcome A * App.

Definition ret {A} (a : A) : M A := fun s => (Ok a, s).

Definition bind {A B} (m : M A) (k : A -> M B) : M B :=
  fun s =>
    match m s with
    | (Ok a, s') => k a s'
    | (Thrown e, s') => (Thrown e, s')
    end.

Definition throw {A} (e : string) : M A := fun s => (Thrown e, s).

(** [try { body } catch (e) { handler e }] *)
Definition try_catch {A} (body : M A) (handler : string -> M A) : M A :=
  fun s =>
    match body s with
    | (Ok a, s') => (Ok a, s')
    | (Thrown e, s') => handler e s'
    end.

(** [try { body } finally { fin }] *)
Definition try_finally {A} (body : M A) (fin : M unit) : M A :=
  fun s =>
    match body s with
    | (r, s') =>
        match fin s' with
        | (Ok _, s'') => (r, s'')
        | (Thrown e, s'') => (Thrown e, s'')
        end
    end.

Definition get_client : M Client := fun s => (Ok (client s), s).
Definition get_world : M World := fun s => (Ok (world s), s).
Definition put_client (c : Client) : M unit :=
  fun s => (Ok tt, {| client := c; world := world s |}).
Definition put_world (w : World) : M unit :=
  fun s => (Ok tt, {| client := client s; world := w |}).

End Eff.

Declare Scope eff_scope.
Delimit Scope eff_scope with eff.
Notation "x <- m ;; k" := (Eff.bind m (fun x => k))
  (at level 61, m at next level, right associativity) : eff_scope.
Notation "m ;;; k" := (Eff.bind m (fun _ => k))
  (at level 61, right associativity) : eff_scope.
Local Open Scope eff_scope.

Import Eff.

Definition emit (e : Event) : M unit :=
  w <- get_world ;;
  put_world {| rows := rows w; now := now w; faults := faults w;
               log := log w ++ [e] |}.

Definition console_error (msg : string) : M unit := emit (ev_console_error msg).
Definition toast (title : string) : M unit := emit (ev_toast title).
Definition navigate (path : string) (slot : BookingSlot) : M unit :=
  emit (ev_navigate path slot).

(** [Date.now()] *)
Definition date_now : M Z := w <- get_world ;; ret (now w).

(** The flag of the next request; each request consumes one. *)
Definition next_fault (w : World) : bool :=
  match faults w with
  | b :: _ => b
  | [] => false
  end.

Definition store_unreachable : string := "store unreachable".

(** Modelled from the spec: the request
    [supabase.from('booking_slots').update(p).eq(..).eq(..)] to the external
    Slot Store.  A served request applies the conditional update and
    resolves without error; an unreachable store resolves with an error and
    changes nothing. *)
Definition store_update (p : Patch) (fs : list Filter) : M (Response unit) :=
  w <- get_world ;;
  if next_fault w then
    put_world {| rows := rows w; now := now w; faults := tl (faults w);
                 log := log w ++ [ev_update p fs] |} ;;;
    ret (mkResponse None (Some store_unreachable))
  else
    put_world {| rows := update_rows p fs (rows w); now := now w;
                 faults := tl (faults w);
                 log := log w ++ [ev_update p fs] |} ;;;
    ret (mkResponse None None).

(** Modelled from the spec: the request
    [supabase.from('booking_slots').select(..).eq(..)...order(..)] to the
    external Slot Store, resolving to the ordered matching rows or, when the
    store is unreachable, to an error. *)
Definition store_select (fs : list Filter) : M (Response (list BookingSlot)) :=
  w <- get_world ;;
  put_world {| rows := rows w; now := now w; faults := tl (faults w);
               log := log w ++ [ev_select fs] |} ;;;
  if next_fault w then ret (mkResponse None (Some store_unreachable))
  else ret (mkResponse (Some (select_rows fs (rows w))) None).

(* ------------------------------------------------------------------ *)
(** ** The [useProviderAvailability] hook *)

(** [data || []] *)
Definition or_empty {A} (d : option (list A)) : list A :=
  match d with
  | Some l => l
  | None => []
  end.

Definition getAvailableSlots (providerId : string) (date : Z)
  : M (list BookingSlot) :=
  try_catch
    (r <- store_select [eq_provider_id providerId; eq_date date;
                        eq_status available] ;;
     match error r with
     | Some e => throw e
     | None => ret (or_empty (data r))
     end)
    (fun _ => console_error "Error fetching available slots:" ;;; ret []).

Definition holdSlot (slotId userId : string) : M bool :=
  try_catch
    (t <- date_now ;;
     let holdExpiresAt := t + 7 * 60 * 1000 in
     r <- store_update {| set_status := held;
                          set_held_by := Some userId;
                          set_hold_expires_at := Some holdExpiresAt |}
                       [eq_id slotId; eq_status available] ;;
     match error r with
     | Some e => throw e
     | None => ret true
     end)
    (fun _ => console_error "Error holding slot:" ;;; ret false).

Definition releaseSlot (slotId userId : string) : M bool :=
  try_catch
    (r <- store_update {| set_status := available;
                          set_held_by := None;
                          set_hold_expires_at := None |}
                       [eq_id slotId; eq_held_by userId] ;;
     match error r with
     | Some e => throw e
     | None => ret true
     end)
    (fun _ => console_error "Error releasing slot:" ;;; ret false).

(* ------------------------------------------------------------------ *)
(** ** The [TimeSelection] page *)

Definition setAvailableSlots (l : list BookingSlot) : M unit :=
  c <- get_client ;;
  put_client {| user := user c; providerId := providerId c;
                selectedDate := selectedDate c; availableSlots := l;
                selectedSlot := selectedSlot c; heldSlot := heldSlot c;
                loading := loading c |}.

Definition setSelectedSlot (v : option BookingSlot) : M unit :=
  c <- get_client ;;
  put_client {| user := user c; providerId := providerId c;
                selectedDate := selectedDate c;
                availableSlots := availableSlots c;
                selectedSlot := v; heldSlot := heldSlot c;
                loading := loading c |}.

Definition setHeldSlot (v : option BookingSlot) : M unit :=
  c <- get_client ;;
  put_client {| user := user c; providerId := providerId c;
                selectedDate := selectedDate c;
                availableSlots := availableSlots c;
                selectedSlot := selectedSlot c; heldSlot := v;
                loading := loading c |}.

Definition setLoading (b : bool) : M unit :=
  c <- get_client ;;
  put_client {| user := user c; providerId := providerId c;
                selectedDate := selectedDate c;
                availableSlots := availableSlots c;
                selectedSlot := selectedSlot c; heldSlot := heldSlot c;
                loading := b |}.

(** A route parameter is falsy when it is missing or the empty string. *)
Definition truthy (o : option string) : option string :=
  match o with
  | Some s => if String.eqb s "" then None else Some s
  | None => None
  end.

(** The end of the generation window the page computes:
    [endDate.setDate(endDate.getDate() + 14)]. *)
Definition generation_window_end (selected : Z) : Z := selected + 14.

(** The handlers read props and state from the render they were created in
    ([get_client] at entry) and queue state updates with the setters.  A
    call that is not awaited ([fetchAvailableSlots ()] at the end of a
    handler) is run to its end in place.  The
    generation request after the first empty answer is commented out in the
    source ("TODO: Re-enable slot generation when function is available"):
    [endDate] is computed and dropped. *)
Definition fetchAvailableSlots : M unit :=
  c <- get_client ;;
  match selectedDate c, truthy (providerId c) with
  | Some d, Some p =>
      setLoading true ;;;
      try_finally
        (try_catch
           (let dateString := d in
            slots <- getAvailableSlots p dateString ;;
            if (List.length slots =? 0)%nat then
              let endDate := generation_window_end d in
              newSlots <- getAvailableSlots p dateString ;;
              setAvailableSlots newSlots
            else
              setAvailableSlots slots)
           (fun _ => console_error "Error fetching slots:" ;;; toast "Error"))
        (setLoading false)
  | _, _ => ret tt
  end.

Definition handleSlotSelect (slot : BookingSlot) : M unit :=
  c <- get_client ;;
  match user c with
  | None => toast "Authentication Required"
  | Some uid =>
      (match heldSlot c with
       | Some h =>
           if negb (String.eqb (id h) (id slot))
           then (_ <- releaseSlot (id h) uid ;; ret tt)
           else ret tt
       | None => ret tt
       end) ;;;
      success <- holdSlot (id slot) uid ;;
      if success : bool then
        setSelectedSlot (Some slot) ;;;
        setHeldSlot (Some slot) ;;;
        toast "Slot Reserved"
      else
        toast "Slot Unavailable" ;;;
        fetchAvailableSlots
  end.

(** The route state carries the held slot as [selectedSlot]; building it
    formats the selected date, and [format] of a missing date raises before
    [navigate] is called. *)
Definition handleProceedToPayment : M unit :=
  c <- get_client ;;
  match selectedSlot c, heldSlot c with
  | Some _, Some h =>
      match selectedDate c with
      | Some _ => navigate "/cart" h
      | None => throw "Invalid time value"
      end
  | _, _ => ret tt
  end.

Definition handleSlotExpired : M unit :=
  c <- get_client ;;
  match heldSlot c, user c with
  | Some h, Some uid =>
      _ <- releaseSlot (id h) uid ;;
      setHeldSlot None ;;;
      setSelectedSlot None ;;;
      fetchAvailableSlots ;;;
      toast "Slot Expired"
  | _, _ => ret tt
  end.

(** The prop the page hands to [SlotCountdownTimer] whenever it renders with
    a held slot: [new Date(Date.now() + 7 * 60 * 1000)], read at render. *)
Definition countdown_expiresAt (a : App) : option Z :=
  match heldSlot (client a) with
  | Some _ => Some (now (world a) + 7 * 60 * 1000)
  | None => None
  end.

(** Time passing between two events of the page. *)
Definition advance_clock (t : Z) (a : App) : App :=
  {| client := client a;
     world := {| rows := rows (world a); now := t;
                 faults := faults (world a); log := log (world a) |} |}.

(** The operations of the subsystem, and the state each one leaves. *)
Inductive Op : Type :=
| op_getAvailableSlots (providerId : string) (date : Z)
| op_holdSlot (slotId userId : string)
| op_releaseSlot (slotId userId : string)
| op_fetchAvailableSlots
| op_handleSlotSelect (slot : BookingSlot)
| op_handleProceedToPayment
| op_handleSlotExpired.

Definition exec {A} (m : M A) (a : App) : App := snd (m a).
Definition result {A} (m : M A) (a : App) : Outcome A := fst (m a).

Definition run_op (o : Op) : App -> App :=
  match o with
  | op_getAvailableSlots p d => exec (getAvailableSlots p d)
  | op_holdSlot s u => exec (holdSlot s u)
  | op_releaseSlot s u => exec (releaseSlot s u)
  | op_fetchAvailableSlots => exec fetchAvailableSlots
  | op_handleSlotSelect slot => exec (handleSlotSelect slot)
  | op_handleProceedToPayment => exec handleProceedToPayment
  | op_handleSlotExpired => exec handleSlotExpired
  end.

(* ------------------------------------------------------------------ *)
(** ** The countdown notifier *)

Module Notifier.

(** Modelled from the spec: the [SlotCountdownTimer] component (imported
    from [@/components/SlotCountdownTimer], absent from the sources) is the
    countdown notifier: started with an absolute deadline, it computes
    [remaining = deadline - now] on every tick and, when [remaining <= 0],
    fires the expiry signal once and stops ticking; a cancelled notifier
    never fires. *)
Record t : Type := mk {
  deadline : Z;
  ticking : bool;
  fired : nat
}.

(** Modelled from the spec: starting the countdown for a deadline. *)
Definition start (expiresAt : Z) : t :=
  {| deadline := expiresAt; ticking := true; fired := 0 |}.

(** Modelled from the spec: one tick of the countdown. *)
Definition tick (clock : Z) (n : t) : t :=
  if ticking n && (deadline n - clock <=? 0)
  then {| deadline := deadline n; ticking := false; fired := S (fired n) |}
  else n.

(** Modelled from the spec: tearing the countdown down. *)
Definition cancel (n : t) : t :=
  {| deadline := deadline n; ticking := false; fired := fired n |}.

(** Modelled from the spec: the notifier after the ticks at the given clock
    readings. *)
Definition run (clocks : list Z) (n : t) : t :=
  fold_left (fun acc c => tick c acc) clocks n.

End Notifier.

(* ------------------------------------------------------------------ *)
(** ** The [verify-payment] edge function *)

Module VerifyPayment.

(** [s.replace(pat, rep)]: the first occurrence only. *)
Fixpoint replace_first (pat rep s : string) : string :=
  if String.prefix pat s
  then rep ++ String.substring (String.length pat)
                               (String.length s - String.length pat) s
  else match s with
       | EmptyString => EmptyString
       | String ch rest => String ch (replace_first pat rep rest)
       end.

Record Request : Type := mkRequest {
  method : string;
  authorization : option string;
  sessionId : option string
}.

(** The services the function calls: the identity service (token to user
    id), the configured payment key, and the payment provider's session
    lookup (session id to [payment_status]; [None] when the lookup throws
    or yields nothing). *)
Record Services : Type := mkServices {
  auth_getUser : string -> option string;
  stripe_secret_key : option string;
  sessions_retrieve : string -> option string
}.

Inductive Reply : Type :=
| preflight
| verified (order_time : Z) (order_user : string) (session : string)
| not_paid (paymentStatus : string)
| failed (message : string).

Definition http_status (r : Reply) : Z :=
  match r with
  | preflight => 200
  | verified _ _ _ => 200
  | not_paid _ => 400
  | failed _ => 500
  end.

Definition success (r : Reply) : bool :=
  match r with
  | verified _ _ _ => true
  | _ => false
  end.

Definition serve (sv : Services) (clock : Z) (req : Request) : Reply :=
  if String.eqb (method req) "OPTIONS" then preflight else
  match truthy (authorization req) with
  | None => failed "No authorization header provided"
  | Some authHeader =>
      let token := replace_first "Bearer " "" authHeader in
      match auth_getUser sv token with
      | None => failed "User not authenticated"
      | Some uid =>
          match truthy (sessionId req) with
          | None => failed "Session ID is required"
          | Some sid =>
              match truthy (stripe_secret_key sv) with
              | None => failed "STRIPE_SECRET_KEY not configured"
              | Some _ =>
                  match sessions_retrieve sv sid with
                  | None => failed "Session not found"
                  | Some payment_status =>
                      if String.eqb payment_status "paid"
                      then verified clock (String.substring 0 8 uid) sid
                      else not_paid payment_status
                  end
              end
          end
      end
  end.

End VerifyPayment.

(* ------------------------------------------------------------------ *)
(** ** Properties of rows, tables and traces *)

Definition is_some {A} (o : option A) : bool :=
  match o with
  | Some _ => true
  | None => false
  end.

(** Holder and deadline are both present or both absent, and present
    exactly when the slot is held. *)
Definition slot_inv (r : BookingSlot) : Prop :=
  (held_by r <> None <-> hold_expires_at r <> None) /\
  (held_by r <> None <-> status r = held).

Definition slot_invb (r : BookingSlot) : bool :=
  Bool.eqb (is_some (held_by r)) (is_some (hold_expires_at r)) &&
  Bool.eqb (is_some (held_by r)) (status_eqb (status r) held).

Definition store_inv (a : App) : Prop := Forall slot_inv (rows (world a)).

(** [id] is the primary key of the table. *)
Definition unique_ids (a : App) : Prop := NoDup (map id (rows (world a))).

(** The rows a user holds. *)
Definition holds_of (u : string) (rs : list BookingSlot) : list BookingSlot :=
  filter (fun r => opt_string_is (held_by r) u) rs.

(** Within the flow, every row the user holds in the store is the one the
    page remembers in [heldSlot]. *)
Definition flow_inv (u : string) (a : App) : Prop :=
  forall r, In r (rows (world a)) -> held_by r = Some u ->
            exists h, heldSlot (client a) = Some h /\ id h = id r.

(** The release request of [handleSlotSelect], when the page issues one, is
    served by the store. *)
Definition release_served (slot : BookingSlot) (a : App) : Prop :=
  match heldSlot (client a) with
  | Some h =>
      if String.eqb (id h) (id slot) then True
      else next_fault (world a) = false
  | None => True
  end.

Definition is_update (e : Event) : bool :=
  match e with
  | ev_update _ _ => true
  | _ => false
  end.

Definition is_select (e : Event) : bool :=
  match e with
  | ev_select _ => true
  | _ => false
  end.

Definition is_rpc (e : Event) : bool :=
  match e with
  | ev_rpc _ _ _ _ => true
  | _ => false
  end.

Definition is_navigate (e : Event) : bool :=
  match e with
  | ev_navigate _ _ => true
  | _ => false
  end.

(** The events an operation appends to the trace. *)
Definition emitted {A} (m : M A) (a : App) : list Event :=
  skipn (List.length (log (world a))) (log (world (exec m a))).

Definition hold_patch (userId : string) (t : Z) : Patch :=
  {| set_status := held;
     set_held_by := Some userId;
     set_hold_expires_at := Some (t + 7 * 60 * 1000) |}.

Definition release_patch : Patch :=
  {| set_status := available; set_held_by := None;
     set_hold_expires_at := None |}.

Definition hold_request (slotId userId : string) (t : Z) : Event :=
  ev_update (hold_patch userId t) [eq_id slotId; eq_status available].

Definition release_request (slotId userId : string) : Event :=
  ev_update release_patch [eq_id slotId; eq_held_by userId].

Definition query_filters (p : string) (d : Z) : list Filter :=
  [eq_provider_id p; eq_date d; eq_status available].

Definition by_display_order (x y : BookingSlot) : Prop :=
  display_order x <= display_order y.

(** The page still remembers a held slot whose deadline in the store has
    passed. *)
Definition past_deadline (a : App) : bool :=
  match heldSlot (client a) with
  | Some h =>
      existsb (fun r => String.eqb (id r) (id h) &&
                        match hold_expires_at r with
                        | Some d => d <? now (world a)
                        | None => false
                        end)
              (rows (world a))
  | None => false
  end.

(** [handleProceedToPayment] hands the slot over to the cart. *)
Definition hands_off (a : App) : bool :=
  existsb is_navigate (emitted handleProceedToPayment a).

(** The statement of the spec about confirmation: past the deadline no
    hand-off happens. *)
Definition confirm_refused_past_deadline (a : App) : Prop :=
  past_deadline a = true -> hands_off a = false.

(** The statement of the spec about generation: when the table has no slot
    for the requested provider and date, fetching asks for the generation of
    the 14-day window starting at that date. *)
Definition generation_requested (a : App) : Prop :=
  forall p d,
    truthy (providerId (client a)) = Some p ->
    selectedDate (client a) = Some d ->
    filter (matches_all [eq_provider_id p; eq_date d]) (rows (world a)) = [] ->
    In (ev_rpc "generate_provider_slots" p d (generation_window_end d))
       (emitted fetchAvailableSlots a).

(** The statement of the spec about store failures: an unreachable store is
    reported to the caller as an error, not as an empty list. *)
Definition store_failure_propagated (p : string) (d : Z) (a : App) : Prop :=
  next_fault (world a) = true ->
  exists e, result (getAvailableSlots p d) a = Thrown e.

(* ------------------------------------------------------------------ *)
(** ** Concrete tables and pages (the scenarios of the spec) *)

Module Scenario.

(** 2025-03-01 as a day number. *)
Definition march_1 : Z := 20148.

(** Slot S of provider P, 10:00 on 2025-03-01, as generated. *)
Definition slot_S : BookingSlot :=
  {| id := "S"; provider_id := "P"; date := march_1; display_order := 10;
     status := available; held_by := None; hold_expires_at := None;
     booking_id := None |}.

(** A second slot of the same day, 09:00. *)
Definition slot_T : BookingSlot :=
  {| id := "T"; provider_id := "P"; date := march_1; display_order := 9;
     status := available; held_by := None; hold_expires_at := None;
     booking_id := None |}.

Definition held_until (r : BookingSlot) (u : string) (d : Z) : BookingSlot :=
  apply_patch {| set_status := held; set_held_by := Some u;
                 set_hold_expires_at := Some d |} r.

Definition page (u : string) (h : option BookingSlot) : Client :=
  {| user := Some u; providerId := Some "P"; selectedDate := Some march_1;
     availableSlots := []; selectedSlot := h; heldSlot := h;
     loading := false |}.

Definition table (rs : list BookingSlot) (t : Z) (fs : list bool) : World :=
  {| rows := rs; now := t; faults := fs; log := [] |}.

(** A opens the page; S is free. *)
Definition fresh : App :=
  {| client := page "A" None; world := table [slot_S] 0 [] |}.

(** A opens the page; B already holds S. *)
Definition contended : App :=
  {| client := page "A" None;
     world := table [held_until slot_S "B" 420000] 0 [] |}.

(** A took the free slot S at time 0 and the page was drawn one second
    later; it is now 07:00.500 and the deadline written at time 0 ran out at
    07:00.000. *)
Definition acquired : App := exec (handleSlotSelect slot_S) fresh.
Definition drawn : App := advance_clock 1000 acquired.
Definition overdue : App := advance_clock 420500 acquired.

(** Nothing has been generated for the provider yet. *)
Definition empty : App :=
  {| client := page "A" None; world := table [] 0 [] |}.

(** S is free but the store cannot be reached. *)
Definition offline : App :=
  {| client := page "A" None; world := table [slot_S] 0 [true] |}.


(** A holds S and T is free; the store is reachable. *)
Definition switching_ok : App :=
  {| client := page "A" (Some slot_S);
     world := table [held_until slot_S "A" 420000; slot_T] 1000 [] |}.

End Scenario.

(* ------------------------------------------------------------------ *)
(** ** What one call of each hook function does *)

Definition served_update (p : Patch) (fs : list Filter) (w : World) : World :=
  {| rows := update_rows p fs (rows w); now := now w;
     faults := tl (faults w); log := log w ++ [ev_update p fs] |}.

Definition failed_update (p : Patch) (fs : list Filter) (msg : string)
           (w : World) : World :=
  {| rows := rows w; now := now w; faults := tl (faults w);
     log := (log w ++ [ev_update p fs]) ++ [ev_console_error msg] |}.

Definition served_select (fs : list Filter) (w : World) : World :=
  {| rows := rows w; now := now w; faults := tl (faults w);
     log := log w ++ [ev_select fs] |}.

Definition failed_select (fs : list Filter) (msg : string) (w : World)
  : World :=
  {| rows := rows w; now := now w; faults := tl (faults w);
     log := (log w ++ [ev_select fs]) ++ [ev_console_error msg] |}.

(** An operation keeps a property of the table. *)
Definition preserves {A} (Q : list BookingSlot -> Prop) (m : M A) : Prop :=
  forall a, Q (rows (world a)) -> Q (rows (world (exec m a))).

(** What one [getAvailableSlots] call answers and leaves behind. *)
Definition query_result (p : string) (d : Z) (w : World) : list BookingSlot :=
  if next_fault w then [] else select_rows (query_filters p d) (rows w).

Definition query_world (p : string) (d : Z) (w : World) : World :=
  if next_fault w
  then failed_select (query_filters p d) "Error fetching available slots:" w
  else served_select (query_filters p d) w.

(** The list [fetchAvailableSlots] puts on the page, and the environment it
    leaves: the first answer when it is not empty, the second otherwise. *)
Definition fetched_slots (p : string) (d : Z) (w : World) : list BookingSlot :=
  match query_result p d w with
  | [] => query_result p d (query_world p d w)
  | first => first
  end.

Definition fetched_world (p : string) (d : Z) (w : World) : World :=
  match query_result p d w with
  | [] => query_world p d (query_world p d w)
  | _ => query_world p d w
  end.

Definition fetched_client (l : list BookingSlot) (c : Client) : Client :=
  {| user := user c; providerId := providerId c;
     selectedDate := selectedDate c; availableSlots := l;
     selectedSlot := selectedSlot c; heldSlot := heldSlot c;
     loading := false |}.

(** The trace of one [getAvailableSlots] call and of [fetchAvailableSlots]. *)
Definition query_events (p : string) (d : Z) (w : World) : list Event :=
  ev_select (query_filters p d) ::
  (if next_fault w
   then [ev_console_error "Error fetching available slots:"]
   else []).

Definition fetched_events (p : string) (d : Z) (w : World) : list Event :=
  match query_result p d w with
  | [] => query_events p d w ++ query_events p d (query_world p d w)
  | _ => query_events p d w
  end.

(** The stages of [handleSlotSelect]: the state after the optional release
    of the slot the page remembers, the page after a successful hold, and a
    state with one more event in the trace. *)
Definition released_first (slot : BookingSlot) (u : string) (a : App) : App :=
  match heldSlot (client a) with
  | Some h =>
      if negb (String.eqb (id h) (id slot))
      then exec (releaseSlot (id h) u) a
      else a
  | None => a
  end.

Definition reserved (slot : BookingSlot) (a : App) : App :=
  {| client :=
       {| user := user (client a); providerId := providerId (client a);
          selectedDate := selectedDate (client a);
          availableSlots := availableSlots (client a);
          selectedSlot := Some slot; heldSlot := Some slot;
          loading := loading (client a) |};
     world := world a |}.

Definition with_event (e : Event) (a : App) : App :=
  {| client := client a;
     world := {| rows := rows (world a); now := now (world a);
                 faults := faults (world a);
                 log := log (world a) ++ [e] |} |}.

(** All rows the user holds have the given id; the user holds no row. *)
Definition held_only (u x : string) (rs : list BookingSlot) : Prop :=
  forall r, In r rs -> held_by r = Some u -> id r = x.

Definition held_none (u : string) (rs : list BookingSlot) : Prop :=
  forall r, In r rs -> held_by r <> Some u.

(** The table seen by the page replaced by another one. *)
Definition with_rows (rs : list BookingSlot) (a : App) : App :=
  {| client := client a;
     world := {| rows := rs; now := now (world a);
                 faults := faults (world a); log := log (world a) |} |}.

(** What makes [verify-payment] answer with success. *)
Definition payment_verified (sv : VerifyPayment.Services)
           (req : VerifyPayment.Request) : Prop :=
  VerifyPayment.method req <> "OPTIONS" /\
  exists header uid sid key,
    truthy (VerifyPayment.authorization req) = Some header /\
    VerifyPayment.auth_getUser sv
      (VerifyPayment.replace_first "Bearer " "" header) = Some uid /\
    truthy (VerifyPayment.sessionId req) = Some sid /\
    truthy (VerifyPayment.stripe_secret_key sv) = Some key /\
    VerifyPayment.sessions_retrieve sv sid = Some "paid".


(** The page once [handleSlotExpired] has dropped the slot it remembered. *)
Definition forgotten (a : App) : App :=
  {| client :=
       {| user := user (client a); providerId := providerId (client a);
          selectedDate := selectedDate (client a);
          availableSlots := availableSlots (client a);
          selectedSlot := None; heldSlot := None;
          loading := loading (client a) |};
     world := world a |}.

(** A visitor who is not signed in looks at the free slot S. *)
Definition signed_out : App :=
  {| client := {| user := None; providerId := Some "P";
                  selectedDate := Some Scenario.march_1;
                  availableSlots := [Scenario.slot_S];
                  selectedSlot := None; heldSlot := None;
                  loading := false |};
     world := Scenario.table [Scenario.slot_S] 0 [] |}.

(** The store serves the next [n] requests. *)
Definition served_next (n : nat) (a : App) : Prop :=
  Forall (fun b => b = false) (firstn n (faults (world a))).

Definition is_toast (e : Event) : bool :=
  match e with
  | ev_toast _ => true
  | _ => false
  end.

(** A opens the page; S and T are both free. *)
Definition two_free : App :=
  {| client := Scenario.page "A" None;
     world := Scenario.table [Scenario.slot_S; Scenario.slot_T] 0 [] |}.

(** A deployment of [verify-payment] with one known user and one paid
    session, and a request of that user for that session. *)
Definition one_paid_session : VerifyPayment.Services :=
  {| VerifyPayment.auth_getUser :=
       fun tok => if String.eqb tok "tok-1" then Some "user-0123456789"
                  else None;
     VerifyPayment.stripe_secret_key := Some "sk_test";
     VerifyPayment.sessions_retrieve :=
       fun sid => if String.eqb sid "cs_1" then Some "paid"
                  else if String.eqb sid "cs_2" then Some "unpaid"
                  else None |}.

Definition verify_request (sid : string) : VerifyPayment.Request :=
  {| VerifyPayment.method := "POST";
     VerifyPayment.authorization := Some "Bearer tok-1";
     VerifyPayment.sessionId := Some sid |}.

(* ------------------------------------------------------------------ *)
(** ** The rest of the [useProviderAvailability] hook *)

(** A row of [time_slots]; [is_active] is the column [fetchTimeSlots]
    filters on. *)
Module TimeSlot.
Record t : Type := mk {
  id : string;
  slot_name : string;
  start_time : string;
  end_time : string;
  display_order : Z;
  is_active : bool
}.
End TimeSlot.

(** A row of [provider_availability]. *)
Module ProviderAvailability.
Record t : Type := mk {
  id : string;
  provider_id : string;
  date : Z;
  is_available : bool;
  time_slots : list string
}.
End ProviderAvailability.

Fixpoint insert_by {A} (key : A -> Z) (x : A) (l : list A) : list A :=
  match l with
  | [] => [x]
  | y :: rest =>
      if key x <? key y then x :: y :: rest
      else y :: insert_by key x rest
  end.

(** [.order(column)]: ascending, ties in table order. *)
Definition sort_by {A} (key : A -> Z) (l : list A) : list A :=
  fold_right (insert_by key) [] l.

(** Modelled from the spec: the Slot Store's conditional delete removes
    exactly the records that satisfy the predicate. *)
Definition delete_rows (fs : list Filter) (rs : list BookingSlot)
  : list BookingSlot :=
  filter (fun r => negb (matches_all fs r)) rs.

Module Hook.

Record Tables : Type := mkTables {
  booking_slots : list BookingSlot;
  provider_availability : list ProviderAvailability.t;
  time_slots : list TimeSlot.t
}.

(** The object handed to [upsert]. *)
Record AvailabilityInput : Type := mkInput {
  in_provider_id : string;
  in_date : Z;
  in_is_available : bool;
  in_time_slots : list string
}.

Inductive Request : Type :=
| select_time_slots
| upsert_provider_availability (row : AvailabilityInput)
| rpc_generate_provider_slots (p_provider_id : string)
                              (p_start_date p_end_date : Z)
| delete_booking_slots (fs : list Filter)
| select_provider_availability (providerId : string) (startDate endDate : Z).

Inductive Toast : Type :=
| toast_success (verb : string) (date : Z)
| toast_error (description : string).

(** The tables, the schedule of store failures, the requests sent, what the
    user and the console were shown, and the hook's own state. *)
Record State : Type := mkState {
  tables : Tables;
  faults : list bool;
  requests : list Request;
  toasts : list Toast;
  console : list string;
  loading : bool;
  timeSlots : list TimeSlot.t
}.

Definition setLoading (b : bool) (st : State) : State :=
  {| tables := tables st; faults := faults st; requests := requests st;
     toasts := toasts st; console := console st; loading := b;
     timeSlots := timeSlots st |}.

Definition setTimeSlots (l : list TimeSlot.t) (st : State) : State :=
  {| tables := tables st; faults := faults st; requests := requests st;
     toasts := toasts st; console := console st; loading := loading st;
     timeSlots := l |}.

Definition toast (t : Toast) (st : State) : State :=
  {| tables := tables st; faults := faults st; requests := requests st;
     toasts := toasts st ++ [t]; console := console st;
     loading := loading st; timeSlots := timeSlots st |}.

Definition console_error (msg : string) (st : State) : State :=
  {| tables := tables st; faults := faults st; requests := requests st;
     toasts := toasts st; console := console st ++ [msg];
     loading := loading st; timeSlots := timeSlots st |}.

(** Modelled from the spec: one request to the store.  It resolves to an
    [error] flag; a served request has its effect on the tables, a failed
    one has none. *)
Definition call (q : Request) (effect : Tables -> Tables) (st : State)
  : bool * State :=
  match faults st with
  | true :: later =>
      (true,
       {| tables := tables st; faults := later;
          requests := requests st ++ [q]; toasts := toasts st;
          console := console st; loading := loading st;
          timeSlots := timeSlots st |})
  | _ =>
      (false,
       {| tables := effect (tables st); faults := tl (faults st);
          requests := requests st ++ [q]; toasts := toasts st;
          console := console st; loading := loading st;
          timeSlots := timeSlots st |})
  end.

Definition with_booking_slots (rs : list BookingSlot) (tb : Tables)
  : Tables :=
  {| booking_slots := rs; provider_availability := provider_availability tb;
     time_slots := time_slots tb |}.

Definition with_provider_availability (l : list ProviderAvailability.t)
           (tb : Tables) : Tables :=
  {| booking_slots := booking_slots tb; provider_availability := l;
     time_slots := time_slots tb |}.

(** [fetchTimeSlots]: the active time slots in display order; on a store
    error the list is left alone and the user is told. *)
Definition fetchTimeSlots (st : State) : State :=
  let answer :=
    sort_by TimeSlot.display_order
            (filter TimeSlot.is_active (time_slots (tables st))) in
  let (error, st1) := call select_time_slots (fun tb => tb) st in
  if error
  then toast (toast_error "Failed to fetch time slots")
             (console_error "Error fetching time slots:" st1)
  else setTimeSlots answer st1.

Definition in_range (providerId : string) (startDate endDate : Z)
           (r : ProviderAvailability.t) : bool :=
  String.eqb (ProviderAvailability.provider_id r) providerId &&
  (startDate <=? ProviderAvailability.date r) &&
  (ProviderAvailability.date r <=? endDate).

(** [getProviderAvailability]: the provider's entries with
    [startDate <= date <= endDate], by date; the empty list on a store
    error. *)
Definition getProviderAvailability (providerId : string)
           (startDate endDate : Z) (st : State)
  : list ProviderAvailability.t * State :=
  let answer :=
    sort_by ProviderAvailability.date
            (filter (in_range providerId startDate endDate)
                    (provider_availability (tables st))) in
  let (error, st1) :=
    call (select_provider_availability providerId startDate endDate)
         (fun tb => tb) st in
  if error
  then ([], console_error "Error fetching provider availability:" st1)
  else (answer, st1).

Section Store.

(** The two effects the sources do not determine: how the store merges an
    upserted availability entry, and which slots the stored procedure
    [generate_provider_slots] leaves in [booking_slots]. *)
Variable upsert :
  AvailabilityInput -> list ProviderAvailability.t ->
  list ProviderAvailability.t.
Variable generate_provider_slots : string -> Z -> Z -> Tables ->
                                   list BookingSlot.

(** [setProviderAvailability].  Only the [error] of the upsert is looked
    at; the answer of the request that follows is dropped. *)
Definition setProviderAvailability (providerId : string) (date : Z)
           (isAvailable : bool) (selectedTimeSlots : list string)
           (st : State) : State :=
  let row := {| in_provider_id := providerId; in_date := date;
                in_is_available := isAvailable;
                in_time_slots := selectedTimeSlots |} in
  let st0 := setLoading true st in
  let (error, st1) :=
    call (upsert_provider_availability row)
         (fun tb => with_provider_availability
                      (upsert row (provider_availability tb)) tb)
         st0 in
  let st3 :=
    if error
    then toast (toast_error "Failed to update availability")
               (console_error "Error setting availability:" st1)
    else
      let st2 :=
        if isAvailable
        then snd (call (rpc_generate_provider_slots providerId date date)
                       (fun tb => with_booking_slots
                                    (generate_provider_slots
                                       providerId date date tb) tb)
                       st1)
        else snd (call (delete_booking_slots
                          [eq_provider_id providerId; eq_date date;
                           eq_status available])
                       (fun tb => with_booking_slots
                                    (delete_rows
                                       [eq_provider_id providerId;
                                        eq_date date; eq_status available]
                                       (booking_slots tb)) tb)
                       st1) in
      toast (toast_success (if isAvailable then "set" else "removed") date)
            st2
  in
  setLoading false st3.

End Store.

End Hook.

(** The store serves the next [n] requests of the hook. *)
Definition hook_served (n : nat) (st : Hook.State) : Prop :=
  Forall (fun b => b = false) (firstn n (Hook.faults st)).

(** Ascending in the key. *)
Definition ascending {A} (key : A -> Z) (x y : A) : Prop := key x <= key y.

(** A provider with two entries of availability and a day whose slot S is
    held by A while T is free. *)
Definition hook_state (fs : list bool) : Hook.State :=
  {| Hook.tables :=
       {| Hook.booking_slots :=
            [Scenario.held_until Scenario.slot_S "A" 420000;
             Scenario.slot_T];
          Hook.provider_availability :=
            [ProviderAvailability.mk "a2" "P" 20150 true ["t1"];
             ProviderAvailability.mk "a1" "P" 20148 true ["t1"; "t2"];
             ProviderAvailability.mk "a3" "Q" 20149 true []];
          Hook.time_slots :=
            [TimeSlot.mk "t2" "Noon" "12:00" "13:00" 2 true;
             TimeSlot.mk "t3" "Night" "22:00" "23:00" 3 false;
             TimeSlot.mk "t1" "Morning" "09:00" "10:00" 1 true] |};
     Hook.faults := fs; Hook.requests := []; Hook.toasts := [];
     Hook.console := []; Hook.loading := false; Hook.timeSlots := [] |}.

(* ------------------------------------------------------------------ *)
(** ** The [create-checkout-session] edge function *)

Module Checkout.

(** A JSON object with string values: later entries of a key override
    earlier ones. *)
Definition Obj : Type := list (string * string).

Fixpoint obj_set (k v : string) (o : Obj) : Obj :=
  match o with
  | [] => [(k, v)]
  | (k', v') :: rest =>
      if String.eqb k' k then (k', v) :: rest
      else (k', v') :: obj_set k v rest
  end.

Fixpoint obj_get (k : string) (o : Obj) : option string :=
  match o with
  | [] => None
  | (k', v') :: rest => if String.eqb k' k then Some v' else obj_get k rest
  end.

(** [{ ...base, ...extra }] *)
Definition spread (base extra : Obj) : Obj :=
  fold_left (fun o kv => obj_set (fst kv) (snd kv) o) extra base.

(** A number used as a condition: missing and zero are falsy. *)
Definition truthy_number (n : option Z) : option Z :=
  match n with
  | Some z => if z =? 0 then None else Some z
  | None => None
  end.

Inductive AuthAnswer : Type :=
| auth_throws
| auth_error
| auth_user (uid : string) (email : option string).

Record LineItem : Type := mkLineItem {
  li_currency : string;
  li_name : string;
  li_description : string;
  unit_amount : Z;
  li_quantity : Z
}.

(** The argument of [stripe.checkout.sessions.create]. *)
Record SessionParams : Type := mkParams {
  customer : option string;
  customer_email : option string;
  line_items : list LineItem;
  mode : string;
  success_url : string;
  cancel_url : string;
  session_metadata : Obj
}.

(** The services the function calls; a payment provider call answers with
    its result or with the message of the error it raises. *)
Record Services : Type := mkServices {
  auth_getUser : string -> AuthAnswer;
  stripe_secret_key : option string;
  customers_list : string -> string + list string;
  sessions_create : SessionParams -> string + (string * string)
}.

Inductive Reply : Type :=
| preflight
| created (url sessionId : string)
| failed (message : string).

Definition http_status (r : Reply) : Z :=
  match r with
  | preflight => 200
  | created _ _ => 200
  | failed _ => 500
  end.

(** Who the function takes the caller to be. *)
Record Identity : Type := mkIdentity {
  userEmail : string;
  userId : option string;
  isAuthenticated : bool
}.

Definition guest : Identity :=
  {| userEmail := "guest@example.com"; userId := None;
     isAuthenticated := false |}.

Definition identify (sv : Services) (authorization : option string)
  : Identity :=
  match truthy authorization with
  | Some authHeader =>
      let token := VerifyPayment.replace_first "Bearer " "" authHeader in
      match auth_getUser sv token with
      | auth_user uid email =>
          match truthy email with
          | Some e => {| userEmail := e; userId := Some uid;
                         isAuthenticated := true |}
          | None => guest
          end
      | _ => guest
      end
  | None => guest
  end.

(** [error.message || "Failed to create checkout session"] *)
Definition message_or_default (m : string) : string :=
  if String.eqb m "" then "Failed to create checkout session" else m.

Definition string_of_bool (b : bool) : string :=
  if b then "true" else "false".

(** The text a template literal gives for a header that may be [null]. *)
Definition template (o : option string) : string :=
  match o with
  | Some s => s
  | None => "null"
  end.

Section Numbers.

(** Prices are JavaScript numbers; [round_cents] stands for
    [Math.round(price * 100)]. *)
Variable Number : Type.
Variable round_cents : Number -> Z.

Record CartItem : Type := mkItem {
  serviceName : string;
  providerName : option string;
  price : Number;
  quantity : option Z
}.

Record Body : Type := mkBody {
  amount : option Z;
  currency : option string;
  cartItems : option (list CartItem);
  metadata : option Obj
}.

Record Request : Type := mkRequest {
  method : string;
  authorization : option string;
  origin : option string;
  body : Body
}.

Definition lineItem (currency : string) (item : CartItem) : LineItem :=
  {| li_currency := currency;
     li_name := serviceName item;
     li_description :=
       match truthy (providerName item) with
       | Some p => "Service by " ++ p
       | None => "Professional service"
       end;
     unit_amount := round_cents (price item);
     li_quantity :=
       match truthy_number (quantity item) with
       | Some q => q
       | None => 1
       end |}.

(** What the function hands to the payment provider, or the message of the
    error raised before it gets there. *)
Definition session_params (sv : Services) (req : Request)
  : string + SessionParams :=
  let who := identify sv (authorization req) in
  let currency := match currency (body req) with
                  | Some c => c
                  | None => "usd"
                  end in
  let metadata := match metadata (body req) with
                  | Some m => m
                  | None => []
                  end in
  match truthy_number (amount (body req)), cartItems (body req) with
  | Some _, Some (first :: others) =>
      let cartItems := first :: others in
      match truthy (stripe_secret_key sv) with
      | None => inl "STRIPE_SECRET_KEY not configured"
      | Some _ =>
          let found :=
            if isAuthenticated who
            then match customers_list sv (userEmail who) with
                 | inl e => inl e
                 | inr (c :: _) => inr (Some c)
                 | inr [] => inr None
                 end
            else inr None in
          match found with
          | inl e => inl e
          | inr customerId =>
              inr {| customer := customerId;
                     customer_email :=
                       match truthy customerId with
                       | Some _ => None
                       | None => Some (userEmail who)
                       end;
                     line_items := map (lineItem currency) cartItems;
                     mode := "payment";
                     success_url :=
                       template (origin req)
                       ++ "/payment-success?session_id={CHECKOUT_SESSION_ID}";
                     cancel_url := template (origin req) ++ "/cart";
                     session_metadata :=
                       spread
                         [("user_id",
                           match truthy (userId who) with
                           | Some u => u
                           | None => "guest"
                           end);
                          ("user_email", userEmail who);
                          ("is_authenticated",
                           string_of_bool (isAuthenticated who))]
                         metadata |}
          end
      end
  | _, _ => inl "Missing required parameters: amount and cartItems"
  end.

Definition serve (sv : Services) (req : Request) : Reply :=
  if String.eqb (method req) "OPTIONS" then preflight else
  match session_params sv req with
  | inl e => failed (message_or_default e)
  | inr params =>
      match sessions_create sv params with
      | inl e => failed (message_or_default e)
      | inr (sessionId, url) => created url sessionId
      end
  end.

End Numbers.

Arguments mkItem {Number} _ _ _ _.
Arguments serviceName {Number} _.
Arguments providerName {Number} _.
Arguments price {Number} _.
Arguments quantity {Number} _.
Arguments mkBody {Number} _ _ _ _.
Arguments amount {Number} _.
Arguments currency {Number} _.
Arguments cartItems {Number} _.
Arguments metadata {Number} _.
Arguments mkRequest {Number} _ _ _ _.
Arguments method {Number} _.
Arguments authorization {Number} _.
Arguments origin {Number} _.
Arguments body {Number} _.
Arguments lineItem {Number} _ _ _.
Arguments session_params {Number} _ _ _.
Arguments serve {Number} _ _ _.

End Checkout.

(** A request with another [amount], and one without credentials. *)
Definition with_amount {Number} (n : option Z) (req : Checkout.Request Number)
  : Checkout.Request Number :=
  {| Checkout.method := Checkout.method req;
     Checkout.authorization := Checkout.authorization req;
     Checkout.origin := Checkout.origin req;
     Checkout.body :=
       {| Checkout.amount := n;
          Checkout.currency := Checkout.currency (Checkout.body req);
          Checkout.cartItems := Checkout.cartItems (Checkout.body req);
          Checkout.metadata := Checkout.metadata (Checkout.body req) |} |}.

Definition without_authorization {Number} (req : Checkout.Request Number)
  : Checkout.Request Number :=
  {| Checkout.method := Checkout.method req;
     Checkout.authorization := None;
     Checkout.origin := Checkout.origin req;
     Checkout.body := Checkout.body req |}.

(** The credentials do not identify a user with an e-mail address. *)
Definition auth_fails (sv : Checkout.Services) (header : string) : Prop :=
  match Checkout.auth_getUser sv
          (VerifyPayment.replace_first "Bearer " "" header) with
  | Checkout.auth_user _ email => truthy email = None
  | _ => True
  end.

(** The cart and metadata sent to the function, when present. *)
Definition cart_of {Number} (req : Checkout.Request Number)
  : list (Checkout.CartItem Number) :=
  match Checkout.cartItems (Checkout.body req) with
  | Some l => l
  | None => []
  end.

Definition metadata_of {Number} (req : Checkout.Request Number)
  : Checkout.Obj :=
  match Checkout.metadata (Checkout.body req) with
  | Some m => m
  | None => []
  end.

(** The identity fields the function derives itself. *)
Definition identity_fields (who : Checkout.Identity) : Checkout.Obj :=
  [("user_id", match truthy (Checkout.userId who) with
               | Some u => u
               | None => "guest"
               end);
   ("user_email", Checkout.userEmail who);
   ("is_authenticated",
    Checkout.string_of_bool (Checkout.isAuthenticated who))].

(** A deployment with one known user who is a stored customer, prices in
    whole dollars, and a cart of two services sent by that user with a
    metadata entry naming another user. *)
Definition shop : Checkout.Services :=
  {| Checkout.auth_getUser :=
       fun tok => if String.eqb tok "tok-1"
                  then Checkout.auth_user "user-1" (Some "a@example.com")
                  else Checkout.auth_error;
     Checkout.stripe_secret_key := Some "sk_test";
     Checkout.customers_list :=
       fun email => inr (if String.eqb email "a@example.com"
                         then ["cus_1"] else []);
     Checkout.sessions_create :=
       fun _ => inr ("cs_1", "https://pay.example/cs_1") |}.

Definition dollars (z : Z) : Z := z * 100.

Definition two_services : list (Checkout.CartItem Z) :=
  [Checkout.mkItem "House Cleaning" (Some "Ann") 75 (Some 2);
   Checkout.mkItem "Plumbing Repair" None 85 (Some 0)].

Definition checkout_request (authorization : option string)
  : Checkout.Request Z :=
  {| Checkout.method := "POST";
     Checkout.authorization := authorization;
     Checkout.origin := Some "https://shop.example";
     Checkout.body :=
       {| Checkout.amount := Some 25725;
          Checkout.currency := None;
          Checkout.cartItems := Some two_services;
          Checkout.metadata :=
            Some [("source", "cart"); ("user_id", "user-2")] |} |}.

(* ------------------------------------------------------------------ *)
(** ** The [Cart] page *)

Module CartPage.

Inductive Toast : Type :=
| cart_empty
| checkout_failed (description : string)
| payment_system_error (description : string).

Section Numbers.

(** The cart total is a JavaScript number: [amount_in_cents] stands for
    [Math.round((totalAmount + serviceFee) * 100)] and [fee_text] for
    [serviceFee.toFixed(2)], with the fee the page derives from the total.
    The items are passed on as they are. *)
Variable Number : Type.
Variable amount_in_cents : Number -> Z.
Variable fee_text : Number -> string.
Variable Item : Type.

Record CheckoutRequest : Type := mkCheckoutRequest {
  amount : Z;
  currency : string;
  cartItems : list Item;
  metadata : Checkout.Obj
}.

Record CheckoutResult : Type := mkCheckoutResult {
  success : bool;
  url : option string;
  error : option string
}.

Inductive Effect : Type :=
| show (t : Toast)
| create_session (r : CheckoutRequest)
| redirect (href : string).

(** [paymentService.createCheckoutSession]: its result, or the message of
    the error it raises. *)
Variable createCheckoutSession : CheckoutRequest -> string + CheckoutResult.

Definition or_text (o : option string) (default : string) : string :=
  match truthy o with
  | Some s => s
  | None => default
  end.

Definition handleCheckout (itemCount : Z) (items : list Item)
           (totalAmount : Number) (isAuthenticated : bool) : list Effect :=
  if (itemCount =? 0) || (List.length items =? 0)%nat
  then [show cart_empty]
  else
    let request :=
      {| amount := amount_in_cents totalAmount;
         currency := "usd";
         cartItems := items;
         metadata :=
           [("source", "cart");
            ("isAuthenticated", Checkout.string_of_bool isAuthenticated);
            ("serviceFee", fee_text totalAmount)] |} in
    create_session request ::
    match createCheckoutSession request with
    | inr result =>
        match (if success result then truthy (url result) else None) with
        | Some href => [redirect href]
        | None =>
            [show (checkout_failed
                     (or_text (error result)
                        "Unable to start checkout. Please try again."))]
        end
    | inl message =>
        [show (payment_system_error
                 ("Error: "
                  ++ or_text (Some message) "Unexpected error occurred"))]
    end.

End Numbers.

Arguments show {Item} _.
Arguments create_session {Item} _.
Arguments redirect {Item} _.

End CartPage.

(** A payment service that answers every request with a checkout page. *)
Definition always_pays (r : CartPage.CheckoutRequest string)
  : string + CartPage.CheckoutResult :=
  inr {| CartPage.success := true;
         CartPage.url := Some "https://pay.example/cs_1";
         CartPage.error := None |}.

(** What makes [verify-payment] answer that the session is not paid: every
    step up to the session lookup succeeds and the payment provider reports
    a status other than [paid]. *)
Definition session_unpaid (sv : VerifyPayment.Services)
           (req : VerifyPayment.Request) (st : string) : Prop :=
  VerifyPayment.method req <> "OPTIONS" /\
  exists header uid sid key,
    truthy (VerifyPayment.authorization req) = Some header /\
    VerifyPayment.auth_getUser sv
      (VerifyPayment.replace_first "Bearer " "" header) = Some uid /\
    truthy (VerifyPayment.sessionId req) = Some sid /\
    truthy (VerifyPayment.stripe_secret_key sv) = Some key /\
    VerifyPayment.sessions_retrieve sv sid = Some st /\
    st <> "paid".

(** A holds S and T is free; the store will fail the next request, the
    release of S, and serve the ones after it. *)
Definition release_fails : App :=
  {| client := Scenario.page "A" (Some Scenario.slot_S);
     world := Scenario.table
                [Scenario.held_until Scenario.slot_S "A" 420000;
                 Scenario.slot_T] 1000 [true] |}.

(** A has clicked S and clicks T before the page is drawn again: the store
    has served the hold of S, the handler of the second click still belongs
    to the render in which no slot was held. *)
Definition second_click : App :=
  {| client := client two_free;
     world := world (exec (handleSlotSelect Scenario.slot_S) two_free) |}.

(* ================================================================== *)
(** * Proofs *)

Lemma holdSlot_eq (slotId userId : string) (a : App) :
  holdSlot slotId userId a =
  if next_fault (world a)
  then (Ok false,
        {| client := client a;
           world := failed_update (hold_patch userId (now (world a)))
                                  [eq_id slotId; eq_status available]
                                  "Error holding slot:" (world a) |})
  else (Ok true,
        {| client := client a;
           world := served_update (hold_patch userId (now (world a)))
                                  [eq_id slotId; eq_status available]
                                  (world a) |}).
Proof.
  unfold holdSlot, try_catch, bind, date_now, store_update, get_world,
    put_world, ret, throw, console_error, emit; cbn.
  destruct (next_fault (world a)); reflexivity.
Qed.

Lemma releaseSlot_eq (slotId userId : string) (a : App) :
  releaseSlot slotId userId a =
  if next_fault (world a)
  then (Ok false,
        {| client := client a;
           world := failed_update release_patch
                                  [eq_id slotId; eq_held_by userId]
                                  "Error releasing slot:" (world a) |})
  else (Ok true,
        {| client := client a;
           world := served_update release_patch
                                  [eq_id slotId; eq_held_by userId]
                                  (world a) |}).
Proof.
  unfold releaseSlot, try_catch, bind, store_update, get_world,
    put_world, ret, throw, console_error, emit; cbn.
  destruct (next_fault (world a)); reflexivity.
Qed.

Lemma getAvailableSlots_eq (p : string) (d : Z) (a : App) :
  getAvailableSlots p d a =
  if next_fault (world a)
  then (Ok [],
        {| client := client a;
           world := failed_select (query_filters p d)
                                  "Error fetching available slots:"
                                  (world a) |})
  else (Ok (select_rows (query_filters p d) (rows (world a))),
        {| client := client a;
           world := served_select (query_filters p d) (world a) |}).
Proof.
  unfold getAvailableSlots, try_catch, bind, store_select, get_world,
    put_world, ret, throw, console_error, emit; cbn.
  destruct (next_fault (world a)); reflexivity.
Qed.

(** [holdSlot] answers [true] exactly when the request came back without an
    error, whatever the number of records it rewrote. *)
Lemma holdSlot_true_iff_served (slotId userId : string) (a : App) :
  result (holdSlot slotId userId) a = Ok (negb (next_fault (world a))).
Proof.
  unfold result. rewrite holdSlot_eq.
  destruct (next_fault (world a)); reflexivity.
Qed.

(* ------------------------------------------------------------------ *)
(** ** Rows under a conditional update *)

Lemma status_eqb_eq (x y : SlotStatus) : status_eqb x y = true <-> x = y.
Proof. destruct x, y; simpl; split; intro H; congruence. Qed.

Lemma opt_string_is_eq (o : option string) (v : string) :
  opt_string_is o v = true <-> o = Some v.
Proof.
  destruct o as [s|]; simpl.
  - rewrite String.eqb_eq. split; intro H; congruence.
  - split; intro H; discriminate.
Qed.

Lemma slot_invb_spec (r : BookingSlot) : slot_invb r = true <-> slot_inv r.
Proof.
  unfold slot_invb, slot_inv.
  destruct (held_by r), (hold_expires_at r), (status r); simpl;
    split; intro H;
    try reflexivity; try discriminate;
    try (repeat split; intro; congruence);
    destruct H as [[H1 H2] [H3 H4]];
    try (exfalso; apply H1; [discriminate | reflexivity]);
    try (exfalso; apply H2; [discriminate | reflexivity]);
    try (exfalso; apply H4; [reflexivity | reflexivity]);
    try (assert (held <> held) by (apply H3; discriminate); congruence);
    try (assert (H5 : available = held) by (apply H3; discriminate);
         discriminate H5);
    try (assert (H5 : booked = held) by (apply H3; discriminate);
         discriminate H5);
    try (assert (H5 : blocked = held) by (apply H3; discriminate);
         discriminate H5).
Qed.

Lemma update_rows_length p fs rs :
  List.length (update_rows p fs rs) = List.length rs.
Proof. unfold update_rows. apply length_map. Qed.

Lemma update_rows_ids p fs rs : map id (update_rows p fs rs) = map id rs.
Proof.
  unfold update_rows. rewrite map_map. apply map_ext.
  intro r. destruct (matches_all fs r); reflexivity.
Qed.

Lemma update_rows_nth p fs rs i r :
  nth_error rs i = Some r ->
  nth_error (update_rows p fs rs) i =
  Some (if matches_all fs r then apply_patch p r else r).
Proof.
  intro H. unfold update_rows. rewrite nth_error_map, H. reflexivity.
Qed.

Lemma update_rows_in p fs rs r' :
  In r' (update_rows p fs rs) ->
  exists r, In r rs /\
            r' = if matches_all fs r then apply_patch p r else r.
Proof.
  unfold update_rows. rewrite in_map_iff.
  intros [r [E I]]. exists r. split; [assumption | symmetry; assumption].
Qed.

Lemma update_rows_unaffected p fs rs :
  affected fs rs = 0%nat -> update_rows p fs rs = rs.
Proof.
  unfold affected, update_rows. induction rs as [|r rs IH]; simpl.
  - reflexivity.
  - destruct (matches_all fs r); simpl; intro H.
    + discriminate.
    + rewrite IH by assumption. reflexivity.
Qed.

Lemma update_rows_Forall (P : BookingSlot -> Prop) p fs rs :
  (forall r, P (apply_patch p r)) ->
  Forall P rs -> Forall P (update_rows p fs rs).
Proof.
  intros Hp H. unfold update_rows. rewrite Forall_map.
  eapply Forall_impl; [| exact H].
  intros r Hr. destruct (matches_all fs r); [apply Hp | exact Hr].
Qed.

Lemma hold_patch_inv u t r : slot_inv (apply_patch (hold_patch u t) r).
Proof. apply slot_invb_spec. reflexivity. Qed.

Lemma release_patch_inv r : slot_inv (apply_patch release_patch r).
Proof. apply slot_invb_spec. reflexivity. Qed.

(* ------------------------------------------------------------------ *)
(** ** Properties of the table kept by every operation *)

Section Preservation.

Variable Q : list BookingSlot -> Prop.
Hypothesis Q_update :
  forall p fs rs, (p = release_patch \/ exists u t, p = hold_patch u t) ->
                  Q rs -> Q (update_rows p fs rs).

Lemma preserves_ret {A} (x : A) : preserves Q (ret x).
Proof. intros a H. exact H. Qed.

Lemma preserves_bind {A B} (m : M A) (k : A -> M B) :
  preserves Q m -> (forall x, preserves Q (k x)) -> preserves Q (bind m k).
Proof.
  intros Hm Hk a H. specialize (Hm a H).
  unfold exec, bind in *. destruct (m a) as [[x|e] a1]; simpl in *.
  - apply (Hk x a1 Hm).
  - exact Hm.
Qed.

Lemma preserves_try_catch {A} (m : M A) (h : string -> M A) :
  preserves Q m -> (forall e, preserves Q (h e)) ->
  preserves Q (try_catch m h).
Proof.
  intros Hm Hh a H. specialize (Hm a H).
  unfold exec, try_catch in *. destruct (m a) as [[x|e] a1]; simpl in *.
  - exact Hm.
  - apply (Hh e a1 Hm).
Qed.

Lemma preserves_try_finally {A} (m : M A) (f : M unit) :
  preserves Q m -> preserves Q f -> preserves Q (try_finally m f).
Proof.
  intros Hm Hf a H. specialize (Hm a H).
  unfold exec, try_finally in *. destruct (m a) as [r a1]; simpl in *.
  specialize (Hf a1 Hm). unfold exec in Hf.
  destruct (f a1) as [[x|e] a2]; simpl in *; exact Hf.
Qed.

Lemma preserves_throw {A} (e : string) : preserves Q (@throw A e).
Proof. intros a H. exact H. Qed.

Lemma preserves_emit (e : Event) : preserves Q (emit e).
Proof. intros a H. exact H. Qed.

Lemma preserves_put_client (c : Client) : preserves Q (put_client c).
Proof. intros a H. exact H. Qed.

Lemma preserves_get_client : preserves Q get_client.
Proof. intros a H. exact H. Qed.

Lemma preserves_holdSlot s u : preserves Q (holdSlot s u).
Proof.
  intros a H. unfold exec. rewrite holdSlot_eq.
  destruct (next_fault (world a)); simpl.
  - exact H.
  - apply Q_update; [right; eauto | exact H].
Qed.

Lemma preserves_releaseSlot s u : preserves Q (releaseSlot s u).
Proof.
  intros a H. unfold exec. rewrite releaseSlot_eq.
  destruct (next_fault (world a)); simpl.
  - exact H.
  - apply Q_update; [left; reflexivity | exact H].
Qed.

Lemma preserves_getAvailableSlots p d : preserves Q (getAvailableSlots p d).
Proof.
  intros a H. unfold exec. rewrite getAvailableSlots_eq.
  destruct (next_fault (world a)); exact H.
Qed.

Ltac preserve_step :=
  lazymatch goal with
  | |- forall _, preserves _ _ => intro
  | |- preserves _ (ret _) => apply preserves_ret
  | |- preserves _ (throw _) => apply preserves_throw
  | |- preserves _ (emit _) => apply preserves_emit
  | |- preserves _ (toast _) => apply preserves_emit
  | |- preserves _ (console_error _) => apply preserves_emit
  | |- preserves _ (navigate _ _) => apply preserves_emit
  | |- preserves _ (put_client _) => apply preserves_put_client
  | |- preserves _ get_client => apply preserves_get_client
  | |- preserves _ (holdSlot _ _) => apply preserves_holdSlot
  | |- preserves _ (releaseSlot _ _) => apply preserves_releaseSlot
  | |- preserves _ (getAvailableSlots _ _) => apply preserves_getAvailableSlots
  | |- preserves _ (try_finally _ _) => apply preserves_try_finally
  | |- preserves _ (try_catch _ _) => apply preserves_try_catch
  | |- preserves _ (bind _ _) => apply preserves_bind
  | |- preserves _ (setLoading _) => unfold setLoading
  | |- preserves _ (setAvailableSlots _) => unfold setAvailableSlots
  | |- preserves _ (setSelectedSlot _) => unfold setSelectedSlot
  | |- preserves _ (setHeldSlot _) => unfold setHeldSlot
  end.

Ltac preserve := repeat preserve_step.

Lemma preserves_fetchAvailableSlots : preserves Q fetchAvailableSlots.
Proof.
  unfold fetchAvailableSlots. preserve.
  destruct (selectedDate x), (truthy (providerId x)); preserve.
  destruct (List.length x1 =? 0)%nat; preserve.
Qed.

Lemma preserves_handleSlotSelect slot : preserves Q (handleSlotSelect slot).
Proof.
  unfold handleSlotSelect. preserve.
  destruct (user x) as [uid|]; preserve.
  - destruct (heldSlot x) as [h|]; preserve.
    destruct (negb (id h =? id slot)%string); preserve.
  - destruct x1; preserve. apply preserves_fetchAvailableSlots.
Qed.

Lemma preserves_handleProceedToPayment : preserves Q handleProceedToPayment.
Proof.
  unfold handleProceedToPayment. preserve.
  destruct (selectedSlot x), (heldSlot x); preserve.
  destruct (selectedDate x); preserve.
Qed.

Lemma preserves_handleSlotExpired : preserves Q handleSlotExpired.
Proof.
  unfold handleSlotExpired. preserve.
  destruct (heldSlot x), (user x); preserve.
  apply preserves_fetchAvailableSlots.
Qed.

Lemma preserves_run_op (o : Op) (a : App) :
  Q (rows (world a)) -> Q (rows (world (run_op o a))).
Proof.
  destruct o; simpl.
  - apply preserves_getAvailableSlots.
  - apply preserves_holdSlot.
  - apply preserves_releaseSlot.
  - apply preserves_fetchAvailableSlots.
  - apply preserves_handleSlotSelect.
  - apply preserves_handleProceedToPayment.
  - apply preserves_handleSlotExpired.
Qed.

End Preservation.

Lemma skipn_length_app {A} (l new : list A) :
  skipn (List.length l) (l ++ new) = new.
Proof. induction l as [|x l IH]; simpl; [reflexivity | exact IH]. Qed.

Lemma emitted_holdSlot s u a :
  emitted (holdSlot s u) a =
  hold_request s u (now (world a)) ::
  (if next_fault (world a) then [ev_console_error "Error holding slot:"]
   else []).
Proof.
  unfold emitted, exec. rewrite holdSlot_eq.
  destruct (next_fault (world a)); simpl.
  - rewrite <- app_assoc. apply skipn_length_app.
  - apply skipn_length_app.
Qed.

Lemma emitted_releaseSlot s u a :
  emitted (releaseSlot s u) a =
  release_request s u ::
  (if next_fault (world a) then [ev_console_error "Error releasing slot:"]
   else []).
Proof.
  unfold emitted, exec. rewrite releaseSlot_eq.
  destruct (next_fault (world a)); simpl.
  - rewrite <- app_assoc. apply skipn_length_app.
  - apply skipn_length_app.
Qed.

(* ------------------------------------------------------------------ *)
(** ** Acquiring a hold *)

(** C3. [holdSlot] sends the store one conditional update and nothing else:
    the update is guarded by [id = slotId] and [status = available], and a
    served request turns every row that is available at that moment into a
    held row with [held_by = userId] and
    [hold_expires_at = now + 7 minutes], leaving its other columns and every
    other row as they were; no read precedes the write. *)
Theorem holdSlot_conditional_transition (slotId userId : string) (a : App) :
  let a' := exec (holdSlot slotId userId) a in
  let t := now (world a) in
  filter (fun e => is_update e || is_select e)
         (emitted (holdSlot slotId userId) a)
  = [ev_update {| set_status := held; set_held_by := Some userId;
                  set_hold_expires_at := Some (t + 7 * 60 * 1000) |}
               [eq_id slotId; eq_status available]] /\
  List.length (rows (world a')) = List.length (rows (world a)) /\
  forall i r,
    nth_error (rows (world a)) i = Some r ->
    (next_fault (world a) = false -> id r = slotId -> status r = available ->
     exists r',
       nth_error (rows (world a')) i = Some r' /\
       status r' = held /\ held_by r' = Some userId /\
       hold_expires_at r' = Some (t + 7 * 60 * 1000) /\
       id r' = id r /\ provider_id r' = provider_id r /\ date r' = date r /\
       display_order r' = display_order r /\ booking_id r' = booking_id r) /\
    (status r <> available -> nth_error (rows (world a')) i = Some r) /\
    (id r <> slotId -> nth_error (rows (world a')) i = Some r).
Proof.
  intros a' t. subst a' t. split; [| split].
  - rewrite emitted_holdSlot.
    destruct (next_fault (world a)); reflexivity.
  - unfold exec. rewrite holdSlot_eq.
    destruct (next_fault (world a)); simpl;
      [reflexivity | apply update_rows_length].
  - intros i r Hi. unfold exec. rewrite holdSlot_eq.
    destruct (next_fault (world a)) eqn:F; simpl.
    + split; [intro; discriminate | split; intros; exact Hi].
    + rewrite (update_rows_nth _ _ _ _ _ Hi). simpl.
      split; [| split].
      * intros _ Hid Hst. rewrite Hid, String.eqb_refl, Hst. simpl.
        eexists. split; [reflexivity |]. simpl. repeat split.
        exact Hid.
      * intro Hst. destruct (status r); try congruence;
          rewrite andb_false_r; reflexivity.
      * intro Hid. apply String.eqb_neq in Hid. rewrite Hid. reflexivity.
Qed.

(** The spec scenario: A acquires the free slot S at time 0. *)
Lemma holdSlot_conditional_transition_witness :
  exists r',
    nth_error (rows (world (exec (holdSlot "S" "A") Scenario.fresh))) 0
    = Some r' /\
    status r' = held /\ held_by r' = Some "A" /\
    hold_expires_at r' = Some 420000.
Proof.
  destruct (holdSlot_conditional_transition "S" "A" Scenario.fresh)
    as [_ [_ H]].
  destruct (H 0%nat Scenario.slot_S eq_refl) as [H1 _].
  destruct (H1 eq_refl eq_refl eq_refl) as [r' [E [Hs [Hh [Hd _]]]]].
  exists r'. repeat split; assumption.
Defined.

(** C1. The code at the input where the claim fails: B already holds S, A
    calls [holdSlot].  The conditional update rewrites no record, yet
    [holdSlot] answers [true], and [handleSlotSelect] records S as held by A
    and announces the reservation instead of refreshing the list.  Likewise,
    of two users acquiring the free slot one after the other both are told
    they succeeded, while the store keeps the first as holder. *)
Theorem holdSlot_success_without_affected_record :
  affected [eq_id "S"; eq_status available]
           (rows (world Scenario.contended)) = 0%nat /\
  result (holdSlot "S" "A") Scenario.contended = Ok true /\
  rows (world (exec (holdSlot "S" "A") Scenario.contended))
  = rows (world Scenario.contended) /\
  heldSlot (client (exec (handleSlotSelect Scenario.slot_S)
                         Scenario.contended))
  = Some Scenario.slot_S /\
  emitted (handleSlotSelect Scenario.slot_S) Scenario.contended
  = [hold_request "S" "A" 0; ev_toast "Slot Reserved"] /\
  result (holdSlot "S" "B") Scenario.fresh = Ok true /\
  result (holdSlot "S" "A") (exec (holdSlot "S" "B") Scenario.fresh)
  = Ok true /\
  map held_by
      (rows (world (exec (holdSlot "S" "A")
                         (exec (holdSlot "S" "B") Scenario.fresh))))
  = [Some "B"].
Proof. repeat split. Qed.

(* ------------------------------------------------------------------ *)
(** ** The slot invariant *)

(** C8. Every operation of the subsystem keeps the invariant of the table:
    on each row, holder and deadline are both present or both absent, and
    they are present exactly when the status is [held]. *)
Theorem operations_preserve_slot_invariant (o : Op) (a : App) :
  store_inv a -> store_inv (run_op o a).
Proof.
  unfold store_inv. apply preserves_run_op.
  intros p fs rs [Hp | [u [t Hp]]] H; subst p.
  - apply update_rows_Forall; [apply release_patch_inv | exact H].
  - apply update_rows_Forall; [apply hold_patch_inv | exact H].
Qed.

Lemma operations_preserve_slot_invariant_witness :
  store_inv (run_op (op_handleSlotSelect Scenario.slot_T)
                    Scenario.switching_ok).
Proof.
  apply (operations_preserve_slot_invariant
           (op_handleSlotSelect Scenario.slot_T) Scenario.switching_ok).
  unfold store_inv. simpl.
  repeat constructor; apply slot_invb_spec; reflexivity.
Defined.

(* ------------------------------------------------------------------ *)
(** ** Releasing a hold *)

Lemma release_twice (slotId userId : string) (rs : list BookingSlot) :
  update_rows release_patch [eq_id slotId; eq_held_by userId]
    (update_rows release_patch [eq_id slotId; eq_held_by userId] rs)
  = update_rows release_patch [eq_id slotId; eq_held_by userId] rs.
Proof.
  unfold update_rows. rewrite map_map. apply map_ext. intro r.
  destruct (matches_all [eq_id slotId; eq_held_by userId] r) eqn:E.
  - simpl. rewrite andb_false_r. reflexivity.
  - rewrite E. reflexivity.
Qed.

Lemma slot_inv_not_held (r : BookingSlot) :
  slot_inv r -> status r <> held -> held_by r = None.
Proof.
  intros [_ [H _]] Hs. destruct (held_by r) as [u|]; [| reflexivity].
  exfalso. apply Hs, H. discriminate.
Qed.

(** C5. A served [releaseSlot] rewrites exactly the rows with [id = slotId]
    whose holder is [userId]: such a row is held and becomes available with
    holder and deadline cleared; every other row, in particular an available
    or a booked one, stays as it is and the call still answers [true] (no
    error).  A second call answers the same and changes nothing. *)
Theorem releaseSlot_guarded_and_idempotent (slotId userId : string) (a : App) :
  store_inv a ->
  next_fault (world a) = false ->
  let a' := exec (releaseSlot slotId userId) a in
  result (releaseSlot slotId userId) a = Ok true /\
  (forall i r,
     nth_error (rows (world a)) i = Some r ->
     (id r = slotId -> held_by r = Some userId ->
      status r = held /\
      exists r',
        nth_error (rows (world a')) i = Some r' /\
        status r' = available /\ held_by r' = None /\
        hold_expires_at r' = None /\
        id r' = id r /\ provider_id r' = provider_id r /\ date r' = date r /\
        display_order r' = display_order r /\ booking_id r' = booking_id r) /\
     (held_by r <> Some userId -> nth_error (rows (world a')) i = Some r) /\
     (id r <> slotId -> nth_error (rows (world a')) i = Some r) /\
     (status r = available \/ status r = booked ->
      nth_error (rows (world a')) i = Some r)) /\
  (next_fault (world a') = false ->
   result (releaseSlot slotId userId) a' = Ok true /\
   rows (world (exec (releaseSlot slotId userId) a')) = rows (world a')).
Proof.
  intros Hinv F a'. subst a'. unfold result, exec.
  rewrite releaseSlot_eq, F. simpl. split; [reflexivity | split].
  - intros i r Hi.
    assert (Hr : slot_inv r).
    { unfold store_inv in Hinv. rewrite Forall_forall in Hinv.
      apply Hinv. eapply nth_error_In. exact Hi. }
    rewrite (update_rows_nth _ _ _ _ _ Hi). simpl.
    assert (Hno : held_by r <> Some userId ->
                  (id r =? slotId)%string
                  && (opt_string_is (held_by r) userId && true) = false).
    { intro Hh. destruct (opt_string_is (held_by r) userId) eqn:E.
      - apply opt_string_is_eq in E. contradiction.
      - apply andb_false_r. }
    split; [| split; [| split]].
    + intros Hid Hh. split.
      * apply Hr. rewrite Hh. discriminate.
      * rewrite Hid, String.eqb_refl, Hh. simpl. rewrite String.eqb_refl.
        simpl. eexists. split; [reflexivity |]. simpl.
        repeat split. exact Hid.
    + intro Hh. rewrite (Hno Hh). reflexivity.
    + intro Hid. apply String.eqb_neq in Hid. rewrite Hid. reflexivity.
    + intro Hs. rewrite Hno; [reflexivity |].
      rewrite (slot_inv_not_held r Hr); [discriminate |].
      destruct Hs as [Hs | Hs]; rewrite Hs; discriminate.
  - intro F'. rewrite releaseSlot_eq. cbn [world] in *. rewrite F'. simpl.
    split; [reflexivity | apply release_twice].
Qed.

(** A releases the slot S that A holds, then releases it again. *)
Lemma releaseSlot_guarded_and_idempotent_witness :
  result (releaseSlot "S" "A") Scenario.switching_ok = Ok true /\
  result (releaseSlot "S" "A")
         (exec (releaseSlot "S" "A") Scenario.switching_ok) = Ok true /\
  rows (world (exec (releaseSlot "S" "A")
                    (exec (releaseSlot "S" "A") Scenario.switching_ok)))
  = rows (world (exec (releaseSlot "S" "A") Scenario.switching_ok)).
Proof.
  assert (Hinv : store_inv Scenario.switching_ok).
  { unfold store_inv. simpl.
    repeat constructor; apply slot_invb_spec; reflexivity. }
  destruct (releaseSlot_guarded_and_idempotent
              "S" "A" Scenario.switching_ok Hinv eq_refl)
    as [H1 [_ H3]].
  destruct (H3 eq_refl) as [H4 H5].
  split; [exact H1 | split; [exact H4 | exact H5]].
Defined.

(* ------------------------------------------------------------------ *)
(** ** The ordered read *)

Lemma insert_by_order_perm (r : BookingSlot) (rs : list BookingSlot) :
  Permutation (insert_by_order r rs) (r :: rs).
Proof.
  induction rs as [|x rest IH]; simpl.
  - apply Permutation_refl.
  - destruct (display_order r <? display_order x).
    + apply Permutation_refl.
    + eapply perm_trans; [apply perm_skip, IH | apply perm_swap].
Qed.

Lemma order_by_display_order_perm (rs : list BookingSlot) :
  Permutation (order_by_display_order rs) rs.
Proof.
  induction rs as [|x rest IH]; simpl.
  - apply perm_nil.
  - eapply perm_trans; [apply insert_by_order_perm | apply perm_skip, IH].
Qed.

Lemma insert_by_order_Forall (P : BookingSlot -> Prop) r rs :
  P r -> Forall P rs -> Forall P (insert_by_order r rs).
Proof.
  intros Hr H.
  eapply Permutation_Forall;
    [apply Permutation_sym, insert_by_order_perm | constructor; assumption].
Qed.

Lemma insert_by_order_sorted (r : BookingSlot) (rs : list BookingSlot) :
  StronglySorted by_display_order rs ->
  StronglySorted by_display_order (insert_by_order r rs).
Proof.
  induction 1 as [|x rest Hs IH Hx]; simpl.
  - constructor; constructor.
  - destruct (Z.ltb_spec (display_order r) (display_order x)) as [Hlt | Hge].
    + constructor; [constructor; assumption |].
      constructor; [unfold by_display_order; lia |].
      eapply Forall_impl; [| exact Hx].
      unfold by_display_order. intros y Hy. lia.
    + constructor; [exact IH |].
      apply insert_by_order_Forall; [exact Hge | exact Hx].
Qed.

Lemma order_by_display_order_sorted (rs : list BookingSlot) :
  StronglySorted by_display_order (order_by_display_order rs).
Proof.
  induction rs as [|x rest IH]; simpl.
  - constructor.
  - apply insert_by_order_sorted, IH.
Qed.

Lemma matches_query_filters p d r :
  matches_all (query_filters p d) r = true <->
  provider_id r = p /\ date r = d /\ status r = available.
Proof.
  unfold query_filters. simpl.
  rewrite !andb_true_iff, String.eqb_eq, Z.eqb_eq, status_eqb_eq.
  tauto.
Qed.

Lemma select_rows_sorted fs rs :
  StronglySorted by_display_order (select_rows fs rs).
Proof. apply order_by_display_order_sorted. Qed.

Lemma select_rows_perm fs rs :
  Permutation (select_rows fs rs) (filter (matches_all fs) rs).
Proof. apply order_by_display_order_perm. Qed.

Lemma select_rows_sound p d rs :
  Forall (fun r => In r rs /\ provider_id r = p /\ date r = d /\
                   status r = available)
         (select_rows (query_filters p d) rs).
Proof.
  eapply Permutation_Forall;
    [apply Permutation_sym, select_rows_perm |].
  apply Forall_forall. intros r Hr. apply filter_In in Hr.
  destruct Hr as [Hin Hm]. split; [exact Hin |].
  apply matches_query_filters. exact Hm.
Qed.

Lemma query_result_sorted p d w :
  StronglySorted by_display_order (query_result p d w).
Proof.
  unfold query_result. destruct (next_fault w);
    [constructor | apply select_rows_sorted].
Qed.

Lemma query_result_sound p d w :
  Forall (fun r => In r (rows w) /\ provider_id r = p /\ date r = d /\
                   status r = available)
         (query_result p d w).
Proof.
  unfold query_result. destruct (next_fault w);
    [constructor | apply select_rows_sound].
Qed.

Lemma query_world_rows p d w : rows (query_world p d w) = rows w.
Proof. unfold query_world. destruct (next_fault w); reflexivity. Qed.

Lemma query_world_log p d w :
  log (query_world p d w) =
  (log w ++ ev_select (query_filters p d) ::
            (if next_fault w
             then [ev_console_error "Error fetching available slots:"]
             else []))%list.
Proof.
  unfold query_world. destruct (next_fault w); simpl;
    [rewrite <- app_assoc |]; reflexivity.
Qed.

Lemma getAvailableSlots_run (p : string) (d : Z) (a : App) :
  getAvailableSlots p d a =
  (Ok (query_result p d (world a)),
   {| client := client a; world := query_world p d (world a) |}).
Proof.
  rewrite getAvailableSlots_eq. unfold query_result, query_world.
  destruct (next_fault (world a)); reflexivity.
Qed.

Arguments getAvailableSlots : simpl never.
Arguments holdSlot : simpl never.
Arguments releaseSlot : simpl never.

Lemma fetchAvailableSlots_idle (a : App) :
  selectedDate (client a) = None \/ truthy (providerId (client a)) = None ->
  fetchAvailableSlots a = (Ok tt, a).
Proof.
  intro H. unfold fetchAvailableSlots, bind, get_client.
  destruct H as [H | H]; rewrite H;
    [| destruct (selectedDate (client a))]; reflexivity.
Qed.

Lemma fetchAvailableSlots_run (p : string) (d : Z) (a : App) :
  truthy (providerId (client a)) = Some p ->
  selectedDate (client a) = Some d ->
  fetchAvailableSlots a =
  (Ok tt,
   {| client := fetched_client (fetched_slots p d (world a)) (client a);
      world := fetched_world p d (world a) |}).
Proof.
  intros Hp Hd.
  unfold fetchAvailableSlots, bind, get_client, try_finally, try_catch,
    setLoading, setAvailableSlots, put_client, ret.
  cbn. rewrite Hp, Hd. cbn.
  rewrite getAvailableSlots_run. cbn.
  unfold fetched_slots, fetched_world, fetched_client.
  destruct (query_result p d (world a)) as [|x l]; cbn.
  - rewrite getAvailableSlots_run. reflexivity.
  - reflexivity.
Qed.

Lemma fetched_world_rows p d w : rows (fetched_world p d w) = rows w.
Proof.
  unfold fetched_world. destruct (query_result p d w);
    rewrite ?query_world_rows; reflexivity.
Qed.

Lemma fetched_world_log p d w :
  log (fetched_world p d w) = (log w ++ fetched_events p d w)%list.
Proof.
  unfold fetched_world, fetched_events.
  destruct (query_result p d w); rewrite !query_world_log.
  - rewrite <- app_assoc. reflexivity.
  - reflexivity.
Qed.

Lemma emitted_fetchAvailableSlots p d a :
  truthy (providerId (client a)) = Some p ->
  selectedDate (client a) = Some d ->
  emitted fetchAvailableSlots a = fetched_events p d (world a).
Proof.
  intros Hp Hd. unfold emitted, exec.
  rewrite (fetchAvailableSlots_run p d a Hp Hd). simpl.
  rewrite fetched_world_log. apply skipn_length_app.
Qed.

Lemma query_events_kinds p d w :
  Forall (fun e => is_rpc e = false /\ is_update e = false)
         (query_events p d w).
Proof.
  unfold query_events. destruct (next_fault w); repeat constructor.
Qed.

Lemma fetched_events_kinds p d w :
  Forall (fun e => is_rpc e = false /\ is_update e = false)
         (fetched_events p d w).
Proof.
  unfold fetched_events. destruct (query_result p d w);
    [apply Forall_app; split |]; apply query_events_kinds.
Qed.

Lemma query_events_selects p d w :
  filter is_select (query_events p d w) = [ev_select (query_filters p d)].
Proof. unfold query_events. destruct (next_fault w); reflexivity. Qed.

(* ------------------------------------------------------------------ *)
(** ** Querying the slots *)

(** On the empty table the page asks the store twice for the slots and
    never asks for a generation. *)
Lemma generation_not_requested : ~ generation_requested Scenario.empty.
Proof.
  intro H.
  specialize (H "P" Scenario.march_1 eq_refl eq_refl eq_refl).
  vm_compute in H.
  destruct H as [H | [H | []]]; discriminate H.
Qed.

(** [fetchAvailableSlots] puts on the page slots of the requested provider
    and date whose status is available, ordered by the display order of
    their time slot, ascending; with a reachable store these are all such
    slots of the table.  When the first answer is empty it asks a second
    time.  It sends no generation request on any path, and the table is left
    as it was. *)
Lemma fetchAvailableSlots_requeries_without_generation
      (p : string) (d : Z) (a : App) :
  truthy (providerId (client a)) = Some p ->
  selectedDate (client a) = Some d ->
  let a' := exec fetchAvailableSlots a in
  let shown := availableSlots (client a') in
  StronglySorted by_display_order shown /\
  Forall (fun r => In r (rows (world a)) /\ provider_id r = p /\
                   date r = d /\ status r = available) shown /\
  (faults (world a) = [] ->
   Permutation shown
               (filter (matches_all [eq_provider_id p; eq_date d;
                                     eq_status available])
                       (rows (world a)))) /\
  (result (getAvailableSlots p d) a = Ok [] ->
   filter is_select (emitted fetchAvailableSlots a)
   = [ev_select [eq_provider_id p; eq_date d; eq_status available];
      ev_select [eq_provider_id p; eq_date d; eq_status available]]) /\
  (result (getAvailableSlots p d) a <> Ok [] ->
   filter is_select (emitted fetchAvailableSlots a)
   = [ev_select [eq_provider_id p; eq_date d; eq_status available]]) /\
  Forall (fun e => is_rpc e = false) (emitted fetchAvailableSlots a) /\
  rows (world a') = rows (world a).
Proof.
  intros Hp Hd a' shown. subst a' shown. unfold exec, result.
  rewrite (emitted_fetchAvailableSlots p d a Hp Hd).
  rewrite (fetchAvailableSlots_run p d a Hp Hd), getAvailableSlots_run.
  simpl. repeat split.
  - unfold fetched_slots.
    destruct (query_result p d (world a)) eqn:E;
      [| rewrite <- E]; apply query_result_sorted.
  - unfold fetched_slots.
    destruct (query_result p d (world a)) eqn:E.
    + eapply Forall_impl; [| apply query_result_sound].
      simpl. intros r Hr. rewrite query_world_rows in Hr. exact Hr.
    + rewrite <- E. apply query_result_sound.
  - intro F. unfold fetched_slots, query_result, query_world, next_fault.
    rewrite F. simpl.
    destruct (select_rows (query_filters p d) (rows (world a))) eqn:E.
    + rewrite F. simpl.
      pose proof (select_rows_perm (query_filters p d) (rows (world a))) as P.
      rewrite E in P. exact P.
    + rewrite <- E. apply select_rows_perm.
  - intro H. injection H as H. unfold fetched_events. rewrite H.
    rewrite filter_app, !query_events_selects. reflexivity.
  - intro H. unfold fetched_events.
    destruct (query_result p d (world a)); [congruence |].
    apply query_events_selects.
  - eapply Forall_impl; [| apply fetched_events_kinds].
    simpl. intros e [He _]. exact He.
  - apply fetched_world_rows.
Qed.

(** Nothing has been generated for the provider: the page asks twice. *)
Lemma fetchAvailableSlots_requeries_without_generation_witness :
  filter is_select (emitted fetchAvailableSlots Scenario.empty)
  = [ev_select [eq_provider_id "P"; eq_date Scenario.march_1;
                eq_status available];
     ev_select [eq_provider_id "P"; eq_date Scenario.march_1;
                eq_status available]].
Proof.
  exact (proj1 (proj2 (proj2 (proj2
           (fetchAvailableSlots_requeries_without_generation
              "P" Scenario.march_1 Scenario.empty eq_refl eq_refl))))
           eq_refl).
Defined.

(** C4. The code at the input where the claim fails: nothing has been
    generated yet for provider P and the page asks for the slots of
    2025-03-01.  The first answer is empty; the page sends the very same
    query a second time and nothing else, so no generation is requested, the
    table stays empty and the page shows no slot.  The generation request
    itself exists in the code: [setProviderAvailability] sends it for the
    day it makes available. *)
Theorem fetchAvailableSlots_skips_generation :
  result (getAvailableSlots "P" Scenario.march_1) Scenario.empty = Ok [] /\
  emitted fetchAvailableSlots Scenario.empty
  = [ev_select [eq_provider_id "P"; eq_date Scenario.march_1;
                eq_status available];
     ev_select [eq_provider_id "P"; eq_date Scenario.march_1;
                eq_status available]] /\
  ~ In (ev_rpc "generate_provider_slots" "P" Scenario.march_1
               (generation_window_end Scenario.march_1))
       (emitted fetchAvailableSlots Scenario.empty) /\
  rows (world (exec fetchAvailableSlots Scenario.empty)) = [] /\
  availableSlots (client (exec fetchAvailableSlots Scenario.empty)) = [] /\
  Hook.requests
    (Hook.setProviderAvailability
       (fun _ l => l) (fun _ _ _ tb => Hook.booking_slots tb)
       "P" Scenario.march_1 true [] (hook_state []))
  = [Hook.upsert_provider_availability
       {| Hook.in_provider_id := "P"; Hook.in_date := Scenario.march_1;
          Hook.in_is_available := true; Hook.in_time_slots := [] |};
     Hook.rpc_generate_provider_slots "P" Scenario.march_1
                                      Scenario.march_1].
Proof.
  repeat split.
  intros [H | [H | []]]; discriminate H.
Qed.

(** C6, as the spec states it, fails when the store is unreachable: the
    caller gets the empty list, not an error. *)
Lemma store_failure_not_propagated :
  ~ store_failure_propagated "P" Scenario.march_1 Scenario.offline.
Proof.
  intro H. destruct (H eq_refl) as [e He]. vm_compute in He. discriminate He.
Qed.

(** C6, amended. [getAvailableSlots] never raises.  When the store is
    unreachable it writes the error to the console and answers the empty
    list, the very answer it gives for a reachable store without a matching
    slot; the table is not touched. *)
Theorem getAvailableSlots_swallows_store_failure
        (p : string) (d : Z) (a : App) :
  next_fault (world a) = true ->
  result (getAvailableSlots p d) a = Ok [] /\
  emitted (getAvailableSlots p d) a
  = [ev_select [eq_provider_id p; eq_date d; eq_status available];
     ev_console_error "Error fetching available slots:"] /\
  rows (world (exec (getAvailableSlots p d) a)) = rows (world a) /\
  result (getAvailableSlots p d)
         {| client := client a;
            world := {| rows := []; now := now (world a); faults := [];
                        log := log (world a) |} |}
  = Ok [] /\
  forall b, exists l, result (getAvailableSlots p d) b = Ok l.
Proof.
  intro F. unfold result, emitted, exec. rewrite !getAvailableSlots_run.
  simpl. unfold query_result. rewrite F. simpl.
  repeat split.
  - rewrite query_world_log, F. apply skipn_length_app.
  - apply query_world_rows.
  - intro b. rewrite getAvailableSlots_run. eexists. reflexivity.
Qed.

Lemma getAvailableSlots_swallows_store_failure_witness :
  result (getAvailableSlots "P" Scenario.march_1) Scenario.offline = Ok [].
Proof.
  exact (proj1 (getAvailableSlots_swallows_store_failure
                  "P" Scenario.march_1 Scenario.offline eq_refl)).
Defined.

(* ------------------------------------------------------------------ *)
(** ** Selecting a slot *)

Lemma handleSlotSelect_run (slot : BookingSlot) (u : string) (a : App) :
  user (client a) = Some u ->
  handleSlotSelect slot a =
  let a1 := released_first slot u a in
  if next_fault (world a1)
  then fetchAvailableSlots
         (with_event (ev_toast "Slot Unavailable")
                     (exec (holdSlot (id slot) u) a1))
  else (Ok tt,
        with_event (ev_toast "Slot Reserved")
                   (reserved slot (exec (holdSlot (id slot) u) a1))).
Proof.
  intro Hu.
  assert (Hpre :
    (match heldSlot (client a) with
     | Some h =>
         if negb (id h =? id slot)%string
         then (_ <- releaseSlot (id h) u ;; ret tt)
         else ret tt
     | None => ret tt
     end) a = (Ok tt, released_first slot u a)).
  { unfold released_first, exec.
    destruct (heldSlot (client a)) as [h|]; [| reflexivity].
    destruct (negb (id h =? id slot)%string); [| reflexivity].
    unfold bind, ret. rewrite releaseSlot_eq.
    destruct (next_fault (world a)); reflexivity. }
  unfold handleSlotSelect. unfold bind at 1. unfold get_client at 1.
  rewrite Hu. unfold bind at 1. rewrite Hpre.
  cbv zeta. set (a1 := released_first slot u a).
  unfold bind at 1. unfold exec. rewrite holdSlot_eq.
  destruct (next_fault (world a1)); reflexivity.
Qed.

Lemma fetchAvailableSlots_frame (a : App) :
  let a' := exec fetchAvailableSlots a in
  rows (world a') = rows (world a) /\
  user (client a') = user (client a) /\
  heldSlot (client a') = heldSlot (client a) /\
  selectedSlot (client a') = selectedSlot (client a) /\
  exists new : list Event,
    log (world a') = (log (world a) ++ new)%list /\
    Forall (fun e => is_rpc e = false /\ is_update e = false) new.
Proof.
  unfold exec.
  destruct (selectedDate (client a)) as [d|] eqn:Hd;
    [destruct (truthy (providerId (client a))) as [p|] eqn:Hp |].
  - rewrite (fetchAvailableSlots_run p d a Hp Hd). simpl.
    repeat split; [apply fetched_world_rows |].
    exists (fetched_events p d (world a)).
    split; [apply fetched_world_log | apply fetched_events_kinds].
  - rewrite fetchAvailableSlots_idle by (right; exact Hp). simpl.
    repeat split. exists []. rewrite app_nil_r. split; constructor.
  - rewrite fetchAvailableSlots_idle by (left; exact Hd). simpl.
    repeat split. exists []. rewrite app_nil_r. split; constructor.
Qed.

Lemma held_none_only u x rs : held_none u rs -> held_only u x rs.
Proof. intros H r Hin Hh. exfalso. exact (H r Hin Hh). Qed.

Lemma held_none_holds_of u rs : held_none u rs -> holds_of u rs = [].
Proof.
  unfold holds_of. induction rs as [|r rs IH]; intro H; simpl.
  - reflexivity.
  - destruct (opt_string_is (held_by r) u) eqn:E.
    + apply opt_string_is_eq in E. exfalso. apply (H r (or_introl eq_refl) E).
    + apply IH. intros r' Hin. apply H. right. exact Hin.
Qed.

Lemma held_only_at_most_one u x rs :
  NoDup (map id rs) -> held_only u x rs ->
  (List.length (holds_of u rs) <= 1)%nat.
Proof.
  unfold holds_of. induction rs as [|r rs IH]; intros Hnd H; simpl.
  - lia.
  - inversion Hnd as [|? ? Hnotin Hnd']; subst.
    assert (Hrest : held_only u x rs).
    { intros r' Hin. apply H. right. exact Hin. }
    destruct (opt_string_is (held_by r) u) eqn:E.
    + apply opt_string_is_eq in E.
      assert (Hx : id r = x) by (apply H; [left; reflexivity | exact E]).
      assert (Hnone : held_none u rs).
      { intros r' Hin Hh. apply Hnotin. rewrite Hx.
        rewrite <- (Hrest r' Hin Hh). apply in_map. exact Hin. }
      simpl. fold (holds_of u rs). rewrite (held_none_holds_of u rs Hnone).
      simpl. lia.
    + apply IH; assumption.
Qed.

(** A served release of the remembered slot leaves the user without a row. *)
Lemma release_clears u x rs :
  held_only u x rs ->
  held_none u (update_rows release_patch [eq_id x; eq_held_by u] rs).
Proof.
  intros H r' Hin Hh. apply update_rows_in in Hin.
  destruct Hin as [r [Hin E]].
  destruct (matches_all [eq_id x; eq_held_by u] r) eqn:M; subst r'.
  - discriminate Hh.
  - simpl in M. rewrite (H r Hin Hh), String.eqb_refl, Hh in M.
    simpl in M. rewrite String.eqb_refl in M. discriminate M.
Qed.

(** A hold of slot [y] gives the user rows of id [y] only. *)
Lemma hold_adds_only u t y rs :
  held_only u y rs ->
  held_only u y
    (update_rows (hold_patch u t) [eq_id y; eq_status available] rs).
Proof.
  intros H r' Hin Hh. apply update_rows_in in Hin.
  destruct Hin as [r [Hin E]].
  destruct (matches_all [eq_id y; eq_status available] r) eqn:M; subst r'.
  - simpl in M. apply andb_true_iff in M. destruct M as [M _].
    apply String.eqb_eq in M. exact M.
  - apply (H r Hin Hh).
Qed.

Lemma flow_inv_held_only u a h :
  flow_inv u a -> heldSlot (client a) = Some h ->
  held_only u (id h) (rows (world a)).
Proof.
  intros H Hh r Hin Hr. destruct (H r Hin Hr) as [h' [E1 E2]].
  rewrite Hh in E1. injection E1 as <-. symmetry. exact E2.
Qed.

Lemma flow_inv_held_none u a :
  flow_inv u a -> heldSlot (client a) = None ->
  held_none u (rows (world a)).
Proof.
  intros H Hh r Hin Hr. destruct (H r Hin Hr) as [h' [E1 _]].
  rewrite Hh in E1. discriminate E1.
Qed.

Lemma flow_inv_at_most_one u a :
  unique_ids a -> flow_inv u a ->
  (List.length (holds_of u (rows (world a))) <= 1)%nat.
Proof.
  intros Hnd H. destruct (heldSlot (client a)) as [h|] eqn:Hh.
  - apply (held_only_at_most_one u (id h)); [exact Hnd |].
    apply flow_inv_held_only; assumption.
  - rewrite held_none_holds_of; [simpl; lia |].
    apply flow_inv_held_none; assumption.
Qed.

(** After the optional release the user holds at most rows of the new
    slot's id. *)
Lemma released_first_held_only slot u a :
  flow_inv u a -> release_served slot a ->
  held_only u (id slot) (rows (world (released_first slot u a))).
Proof.
  intros H Hserved. unfold released_first, release_served in *.
  destruct (heldSlot (client a)) as [h|] eqn:Hh.
  - destruct (id h =? id slot)%string eqn:E; simpl.
    + apply String.eqb_eq in E. rewrite <- E.
      apply flow_inv_held_only; assumption.
    + unfold exec. rewrite releaseSlot_eq, Hserved. simpl.
      apply held_none_only, release_clears.
      apply flow_inv_held_only; assumption.
  - apply held_none_only, flow_inv_held_none; assumption.
Qed.

Lemma released_first_frame slot u a :
  client (released_first slot u a) = client a /\
  now (world (released_first slot u a)) = now (world a) /\
  map id (rows (world (released_first slot u a))) = map id (rows (world a)).
Proof.
  unfold released_first.
  destruct (heldSlot (client a)) as [h|]; [| repeat split].
  destruct (negb (id h =? id slot)%string); [| repeat split].
  unfold exec. rewrite releaseSlot_eq.
  destruct (next_fault (world a)); simpl; repeat split.
  apply update_rows_ids.
Qed.

Lemma released_first_flow_inv slot u a :
  flow_inv u a -> release_served slot a ->
  flow_inv u (released_first slot u a).
Proof.
  intros H Hserved. unfold released_first, release_served in *.
  destruct (heldSlot (client a)) as [h|] eqn:Hh; [| exact H].
  destruct (id h =? id slot)%string eqn:E; simpl; [exact H |].
  unfold exec. rewrite releaseSlot_eq, Hserved. simpl.
  intros r Hin Hr. exfalso.
  apply (release_clears u (id h) (rows (world a))
           (flow_inv_held_only u a h H Hh) r Hin Hr).
Qed.

Lemma emitted_intro {A} (m : M A) (a : App) (new : list Event) :
  log (world (exec m a)) = (log (world a) ++ new)%list -> emitted m a = new.
Proof. intro H. unfold emitted. rewrite H. apply skipn_length_app. Qed.

Lemma handleSlotSelect_log (slot : BookingSlot) (u : string) (a : App) :
  user (client a) = Some u ->
  exists rest : list Event,
    log (world (exec (handleSlotSelect slot) a))
    = (log (world (released_first slot u a))
       ++ hold_request (id slot) u (now (world a)) :: rest)%list /\
    (next_fault (world (released_first slot u a)) = true ->
     exists new,
       rest = ev_console_error "Error holding slot:"
              :: ev_toast "Slot Unavailable" :: new /\
       Forall (fun e => is_rpc e = false /\ is_update e = false) new) /\
    (next_fault (world (released_first slot u a)) = false ->
     rest = [ev_toast "Slot Reserved"]).
Proof.
  intro Hu. unfold exec at 1. rewrite (handleSlotSelect_run slot u a Hu).
  cbv zeta. destruct (released_first_frame slot u a) as [_ [Hnow _]].
  set (a1 := released_first slot u a) in *.
  destruct (next_fault (world a1)) eqn:F.
  - match goal with
    | |- context [fetchAvailableSlots ?s] =>
        destruct (fetchAvailableSlots_frame s) as [_ [_ [_ [_ [new [L K]]]]]]
    end.
    unfold exec in L at 1. rewrite L. unfold exec. rewrite holdSlot_eq, F.
    simpl. rewrite Hnow.
    exists (ev_console_error "Error holding slot:"
            :: ev_toast "Slot Unavailable" :: new).
    split; [| split].
    + rewrite <- !app_assoc. reflexivity.
    + intros _. exists new. split; [reflexivity | exact K].
    + intro; discriminate.
  - unfold exec. rewrite holdSlot_eq, F. simpl. rewrite Hnow.
    exists [ev_toast "Slot Reserved"]. split; [| split].
    + rewrite <- app_assoc. reflexivity.
    + intro; discriminate.
    + reflexivity.
Qed.

(** In [handleSlotSelect], when the page remembers a held slot other
    than the selected one, the release of that slot is sent to the store
    before the hold of the new one.  Starting from a table with unique ids in
    which the only row the user may hold is the remembered one, and with the
    release served by the store, the user holds no row once the release is
    done and at most one row, the selected one, when the handler returns; the
    same bound holds before the call and is kept for the next one. *)
Lemma handleSlotSelect_holds_at_most_one
      (slot : BookingSlot) (u : string) (a : App) :
  user (client a) = Some u ->
  unique_ids a ->
  flow_inv u a ->
  release_served slot a ->
  let a' := exec (handleSlotSelect slot) a in
  (List.length (holds_of u (rows (world a))) <= 1)%nat /\
  (List.length (holds_of u (rows (world a'))) <= 1)%nat /\
  flow_inv u a' /\
  unique_ids a' /\
  forall h,
    heldSlot (client a) = Some h -> id h <> id slot ->
    holds_of u (rows (world (exec (releaseSlot (id h) u) a))) = [] /\
    exists rest,
      emitted (handleSlotSelect slot) a
      = release_request (id h) u
        :: hold_request (id slot) u (now (world a)) :: rest.
Proof.
  intros Hu Hnd Hflow Hserved a'.
  assert (Hids : unique_ids a').
  { unfold unique_ids in *. subst a'.
    change (exec (handleSlotSelect slot) a)
      with (run_op (op_handleSlotSelect slot) a).
    apply (preserves_run_op (fun rs => NoDup (map id rs))); [| exact Hnd].
    intros p fs rs _ H. rewrite update_rows_ids. exact H. }
  assert (Hflow' : flow_inv u a').
  { subst a'. unfold exec. rewrite (handleSlotSelect_run slot u a Hu).
    cbv zeta.
    pose proof (released_first_flow_inv slot u a Hflow Hserved) as H1.
    pose proof (released_first_held_only slot u a Hflow Hserved) as H2.
    set (a1 := released_first slot u a) in *.
    destruct (next_fault (world a1)) eqn:F.
    - match goal with
      | |- context [fetchAvailableSlots ?s] =>
          destruct (fetchAvailableSlots_frame s) as [R [_ [Hh _]]]
      end.
      unfold exec in *. intros r Hin Hr.
      rewrite R in Hin. rewrite Hh.
      rewrite holdSlot_eq, F in Hin |- *.
      simpl in Hin |- *. apply (H1 r Hin Hr).
    - unfold exec. rewrite holdSlot_eq, F. simpl.
      intros r Hin Hr. exists slot. split; [reflexivity |].
      symmetry. apply (hold_adds_only u _ (id slot) _ H2 r Hin Hr). }
  split; [apply flow_inv_at_most_one; assumption |].
  split; [apply flow_inv_at_most_one; assumption |].
  split; [exact Hflow' |]. split; [exact Hids |].
  intros h Hh Hneq. unfold release_served in Hserved. rewrite Hh in Hserved.
  apply String.eqb_neq in Hneq. rewrite Hneq in Hserved. split.
  - unfold exec. rewrite releaseSlot_eq, Hserved. simpl.
    apply held_none_holds_of, release_clears.
    apply flow_inv_held_only; assumption.
  - destruct (handleSlotSelect_log slot u a Hu) as [rest [L _]].
    exists rest. apply emitted_intro. subst a'. rewrite L.
    unfold released_first. rewrite Hh, Hneq. simpl.
    unfold exec. rewrite releaseSlot_eq, Hserved. simpl.
    rewrite <- app_assoc. reflexivity.
Qed.

(** A, holding S, selects T while the store is reachable. *)
Lemma handleSlotSelect_holds_at_most_one_witness :
  (List.length
     (holds_of "A" (rows (world (exec (handleSlotSelect Scenario.slot_T)
                                      Scenario.switching_ok)))) <= 1)%nat.
Proof.
  assert (Hflow : flow_inv "A" Scenario.switching_ok).
  { intros r Hin Hr. exists Scenario.slot_S. split; [reflexivity |].
    simpl in Hin. destruct Hin as [<- | [<- | []]];
      [reflexivity | discriminate Hr]. }
  assert (Hnd : unique_ids Scenario.switching_ok).
  { unfold unique_ids. simpl. repeat constructor; simpl.
    - intros [H | []]. discriminate H.
    - intros []. }
  exact (proj1 (proj2 (handleSlotSelect_holds_at_most_one
                         Scenario.slot_T "A" Scenario.switching_ok
                         eq_refl Hnd Hflow eq_refl))).
Defined.

(** C9. The code at the inputs where the claim fails.  A holds S and
    selects T while the store fails the release of S: the handler drops the
    answer of [releaseSlot], goes on to hold T and announces the
    reservation, and A holds S and T at once.  The same happens without any
    failure when A clicks T before the page is drawn again after the click on
    S: the handler of the second click still sees no held slot, sends no
    release, and A again holds both. *)
Theorem handleSlotSelect_can_hold_two :
  map id (holds_of "A" (rows (world release_fails))) = ["S"] /\
  result (releaseSlot "S" "A") release_fails = Ok false /\
  map id (holds_of "A"
            (rows (world (exec (handleSlotSelect Scenario.slot_T)
                               release_fails))))
  = ["S"; "T"] /\
  emitted (handleSlotSelect Scenario.slot_T) release_fails
  = [release_request "S" "A";
     ev_console_error "Error releasing slot:";
     hold_request "T" "A" 1000;
     ev_toast "Slot Reserved"] /\
  heldSlot (client (exec (handleSlotSelect Scenario.slot_T) release_fails))
  = Some Scenario.slot_T /\
  heldSlot (client second_click) = None /\
  map id (holds_of "A" (rows (world second_click))) = ["S"] /\
  emitted (handleSlotSelect Scenario.slot_T) second_click
  = [hold_request "T" "A" 0; ev_toast "Slot Reserved"] /\
  map id (holds_of "A"
            (rows (world (exec (handleSlotSelect Scenario.slot_T)
                               second_click))))
  = ["S"; "T"].
Proof. repeat split. Qed.

Lemma no_update_filter (l : list Event) :
  Forall (fun e => is_rpc e = false /\ is_update e = false) l ->
  filter is_update l = [].
Proof.
  induction 1 as [|e l [_ Hk] _ IH]; simpl; [reflexivity |].
  rewrite Hk. exact IH.
Qed.



(* ------------------------------------------------------------------ *)
(** ** Proceeding to payment *)

Lemma emitted_handleProceedToPayment (a : App) :
  emitted handleProceedToPayment a =
  match selectedSlot (client a), heldSlot (client a), selectedDate (client a)
  with
  | Some _, Some h, Some _ => [ev_navigate "/cart" h]
  | _, _, _ => []
  end.
Proof.
  apply emitted_intro. unfold exec, handleProceedToPayment, bind, get_client.
  destruct (selectedSlot (client a)), (heldSlot (client a)),
    (selectedDate (client a)); simpl; rewrite ?app_nil_r; reflexivity.
Qed.

Lemma verify_payment_success_iff (sv : VerifyPayment.Services) (t : Z)
      (req : VerifyPayment.Request) :
  VerifyPayment.success (VerifyPayment.serve sv t req) = true <->
  payment_verified sv req.
Proof.
  unfold VerifyPayment.serve, payment_verified.
  destruct (String.eqb_spec (VerifyPayment.method req) "OPTIONS") as [E | E].
  { simpl. split; [discriminate | intros [H _]; contradiction]. }
  destruct (truthy (VerifyPayment.authorization req)) as [header|].
  2:{ simpl. split; [discriminate |].
      intros [_ [x [? [? [? [H _]]]]]]. discriminate H. }
  destruct (VerifyPayment.auth_getUser sv
              (VerifyPayment.replace_first "Bearer " "" header))
    as [uid|] eqn:Eu.
  2:{ simpl. split; [discriminate |].
      intros [_ [x [? [? [? [H [H' _]]]]]]]. injection H as <-.
      rewrite Eu in H'. discriminate H'. }
  destruct (truthy (VerifyPayment.sessionId req)) as [sid|].
  2:{ simpl. split; [discriminate |].
      intros [_ [x [? [? [? [_ [_ [H _]]]]]]]]. discriminate H. }
  destruct (truthy (VerifyPayment.stripe_secret_key sv)) as [key|].
  2:{ simpl. split; [discriminate |].
      intros [_ [x [? [? [? [_ [_ [_ [H _]]]]]]]]]. discriminate H. }
  destruct (VerifyPayment.sessions_retrieve sv sid) as [st|] eqn:Es.
  2:{ simpl. split; [discriminate |].
      intros [_ [x [? [? [? [_ [_ [H [_ H']]]]]]]]]. injection H as <-.
      rewrite Es in H'. discriminate H'. }
  destruct (String.eqb_spec st "paid") as [Ep | Ep]; simpl.
  - split; [intros _ | reflexivity]. split; [exact E |].
    exists header, uid, sid, key. subst st. repeat split; assumption.
  - split; [discriminate |].
    intros [_ [x [? [? [? [_ [_ [H [_ H']]]]]]]]]. injection H as <-.
    rewrite Es in H'. injection H' as H'. contradiction.
Qed.

(** C2, as the spec states it, fails on the page of a user who took S at
    time 0 and presses the button 7 minutes and half a second later: the
    deadline in the store has passed and the slot is handed to the cart. *)
Lemma confirm_not_refused_past_deadline :
  ~ confirm_refused_past_deadline Scenario.overdue.
Proof.
  intro H. specialize (H eq_refl). vm_compute in H. discriminate H.
Qed.

(** C2, amended. [handleProceedToPayment] hands the held slot to the cart
    exactly when the page has a selected slot, a held slot and a selected
    date; it sends nothing to the store, changes no row, and its outcome
    depends neither on the clock nor on the table, so a hold whose deadline
    has passed is handed over like any other.  [verify-payment] answers with
    success exactly when the caller is authenticated and the payment session
    is paid. *)
Theorem handleProceedToPayment_ignores_deadline (a : App) :
  (hands_off a = true <->
   selectedSlot (client a) <> None /\ heldSlot (client a) <> None /\
   selectedDate (client a) <> None) /\
  (forall h,
     selectedSlot (client a) <> None -> heldSlot (client a) = Some h ->
     selectedDate (client a) <> None ->
     emitted handleProceedToPayment a = [ev_navigate "/cart" h]) /\
  Forall (fun e => is_update e = false /\ is_select e = false)
         (emitted handleProceedToPayment a) /\
  rows (world (exec handleProceedToPayment a)) = rows (world a) /\
  (forall t, hands_off (advance_clock t a) = hands_off a) /\
  (forall rs, hands_off (with_rows rs a) = hands_off a) /\
  (forall sv t req,
     VerifyPayment.success (VerifyPayment.serve sv t req) = true <->
     payment_verified sv req).
Proof.
  unfold hands_off.
  split; [| split; [| split; [| split; [| split; [| split]]]]].
  - rewrite emitted_handleProceedToPayment.
    destruct (selectedSlot (client a)), (heldSlot (client a)),
      (selectedDate (client a)); simpl;
      split; try discriminate; try (intros [H1 [H2 H3]]; congruence).
    intros _. repeat split; discriminate.
  - intros h Hs Hh Hd. rewrite emitted_handleProceedToPayment, Hh.
    destruct (selectedSlot (client a)); [| congruence].
    destruct (selectedDate (client a)); [reflexivity | congruence].
  - rewrite emitted_handleProceedToPayment.
    destruct (selectedSlot (client a)), (heldSlot (client a)),
      (selectedDate (client a)); repeat constructor.
  - unfold exec, handleProceedToPayment, bind, get_client.
    destruct (selectedSlot (client a)), (heldSlot (client a)),
      (selectedDate (client a)); reflexivity.
  - intro t. rewrite !emitted_handleProceedToPayment. reflexivity.
  - intro rs. rewrite !emitted_handleProceedToPayment. reflexivity.
  - apply verify_payment_success_iff.
Qed.

Lemma handleProceedToPayment_ignores_deadline_witness :
  emitted handleProceedToPayment Scenario.overdue
  = [ev_navigate "/cart" Scenario.slot_S].
Proof.
  refine (proj1 (proj2 (handleProceedToPayment_ignores_deadline
                          Scenario.overdue))
                Scenario.slot_S _ eq_refl _); discriminate.
Defined.

(* ------------------------------------------------------------------ *)
(** ** The countdown *)

Lemma notifier_stopped (clocks : list Z) (n : Notifier.t) :
  Notifier.ticking n = false -> Notifier.run clocks n = n.
Proof.
  unfold Notifier.run. induction clocks as [|c cs IH]; intro H; simpl.
  - reflexivity.
  - unfold Notifier.tick at 2. rewrite H. simpl. apply IH. exact H.
Qed.

Lemma notifier_run_fired (clocks : list Z) (n : Notifier.t) :
  Notifier.ticking n = true ->
  Notifier.fired (Notifier.run clocks n) =
  (Notifier.fired n +
   if existsb (fun c => (Notifier.deadline n <=? c)%Z) clocks
   then 1 else 0)%nat.
Proof.
  revert n. induction clocks as [|c cs IH]; intros n H.
  - simpl. lia.
  - change (Notifier.run (c :: cs) n)
      with (Notifier.run cs (Notifier.tick c n)).
    unfold Notifier.tick. rewrite H. simpl.
    destruct (Z.leb_spec (Notifier.deadline n - c) 0) as [Hle | Hgt].
    + rewrite notifier_stopped by reflexivity. simpl.
      destruct (Z.leb_spec (Notifier.deadline n) c); [simpl | lia].
      lia.
    + destruct (Z.leb_spec (Notifier.deadline n) c); [lia |]. simpl.
      apply IH. exact H.
Qed.

(** The notifier of the spec, given a deadline, signals expiry once when a
    tick reaches the deadline and never otherwise; cancelled before, it
    stays silent. *)
Lemma notifier_exactly_once (d : Z) (before after : list Z) :
  (Notifier.fired (Notifier.run after (Notifier.start d)) <= 1)%nat /\
  (existsb (fun c => d <=? c) after = true ->
   Notifier.fired (Notifier.run after (Notifier.start d)) = 1%nat) /\
  (existsb (fun c => d <=? c) before = false ->
   Notifier.fired
     (Notifier.run after
        (Notifier.cancel (Notifier.run before (Notifier.start d)))) = 0%nat).
Proof.
  split; [| split].
  - rewrite notifier_run_fired by reflexivity. simpl.
    destruct (existsb _ after); simpl; lia.
  - intro H. rewrite notifier_run_fired by reflexivity. simpl.
    rewrite H. reflexivity.
  - intro H. rewrite notifier_stopped by reflexivity. simpl.
    rewrite notifier_run_fired by reflexivity. simpl. rewrite H. reflexivity.
Qed.

Lemma countdown_expiresAt_at_render (t : Z) (a : App) :
  heldSlot (client a) <> None ->
  countdown_expiresAt (advance_clock t a) = Some (t + 7 * 60 * 1000).
Proof.
  intro H. unfold countdown_expiresAt, advance_clock. simpl.
  destruct (heldSlot (client a)); [reflexivity | contradiction].
Qed.

(** C7. The code at the input where the claim fails: A takes the free slot
    S at time 0, so the deadline fixed at acquisition and written to the
    store is 07:00.000; the page is drawn one second later and starts the
    countdown with 07:01.000, the time of drawing plus 7 minutes.  When the
    clock has passed the deadline of the hold (07:00.500) the notifier has
    not fired, and a later drawing of the page hands it a later deadline
    again. *)
Theorem countdown_started_with_render_time_deadline :
  map hold_expires_at (rows (world Scenario.acquired)) = [Some 420000] /\
  countdown_expiresAt Scenario.drawn = Some 421000 /\
  Notifier.fired
    (Notifier.run [2000; 210000; 420000; 420500] (Notifier.start 421000))
  = 0%nat /\
  Notifier.fired
    (Notifier.run [2000; 210000; 420000; 420500; 421000; 422000]
                  (Notifier.start 421000))
  = 1%nat /\
  countdown_expiresAt (advance_clock 60000 Scenario.acquired)
  = Some 480000.
Proof. repeat split. Qed.

(* ------------------------------------------------------------------ *)
(** ** Further properties of the page handlers *)

Lemma fetchAvailableSlots_result (a : App) :
  result fetchAvailableSlots a = Ok tt.
Proof.
  unfold result.
  destruct (selectedDate (client a)) as [d|] eqn:Hd;
    [destruct (truthy (providerId (client a))) as [p|] eqn:Hp |].
  - rewrite (fetchAvailableSlots_run p d a Hp Hd). reflexivity.
  - rewrite fetchAvailableSlots_idle by (right; exact Hp). reflexivity.
  - rewrite fetchAvailableSlots_idle by (left; exact Hd). reflexivity.
Qed.

Lemma handleSlotExpired_run (h : BookingSlot) (u : string) (a : App) :
  heldSlot (client a) = Some h ->
  user (client a) = Some u ->
  handleSlotExpired a =
  (Ok tt,
   with_event (ev_toast "Slot Expired")
     (exec fetchAvailableSlots
           (forgotten (exec (releaseSlot (id h) u) a)))).
Proof.
  intros Hh Hu.
  unfold handleSlotExpired. unfold bind at 1. unfold get_client at 1.
  rewrite Hh, Hu. unfold bind at 1. unfold exec at 2.
  destruct (releaseSlot (id h) u a) as [[b|e] a1] eqn:E.
  2:{ rewrite releaseSlot_eq in E.
      destruct (next_fault (world a)); discriminate E. }
  simpl snd.
  unfold bind at 1, setHeldSlot, bind at 1, get_client at 1, put_client at 1.
  unfold bind at 1, setSelectedSlot, bind at 1, get_client at 1,
    put_client at 1.
  cbn [client world heldSlot selectedSlot user providerId selectedDate
       availableSlots loading].
  fold (forgotten a1).
  unfold bind at 1.
  pose proof (fetchAvailableSlots_result (forgotten a1)) as R.
  unfold result in R. unfold exec.
  destruct (fetchAvailableSlots (forgotten a1)) as [r a2]. simpl in R.
  subst r. reflexivity.
Qed.

(** Without a signed-in user neither handler reaches the store:
    [handleSlotSelect] only shows the sign-in notice and
    [handleSlotExpired] does nothing at all. *)
Theorem handlers_need_user (slot : BookingSlot) (a : App) :
  user (client a) = None ->
  exec (handleSlotSelect slot) a
  = with_event (ev_toast "Authentication Required") a /\
  emitted (handleSlotSelect slot) a = [ev_toast "Authentication Required"] /\
  exec handleSlotExpired a = a /\
  emitted handleSlotExpired a = [].
Proof.
  intro Hu.
  assert (E1 : exec (handleSlotSelect slot) a
               = with_event (ev_toast "Authentication Required") a).
  { unfold exec, handleSlotSelect, bind, get_client. rewrite Hu.
    reflexivity. }
  assert (E2 : exec handleSlotExpired a = a).
  { unfold exec, handleSlotExpired, bind, get_client. rewrite Hu.
    destruct (heldSlot (client a)); reflexivity. }
  repeat split; try assumption.
  - apply emitted_intro. rewrite E1. reflexivity.
  - apply emitted_intro. rewrite E2, app_nil_r. reflexivity.
Qed.

Lemma handlers_need_user_witness :
  emitted (handleSlotSelect Scenario.slot_S) signed_out
  = [ev_toast "Authentication Required"].
Proof.
  exact (proj1 (proj2 (handlers_need_user Scenario.slot_S signed_out
                                          eq_refl))).
Defined.

(** When the countdown runs out, [handleSlotExpired] sends one release for
    the remembered slot and then forgets it on the page whatever the store
    answered: after a served release no row of that id is held by the user;
    after a failed release the table is as before, so a row the user held is
    still held in the store while the page shows no reservation. *)
Theorem handleSlotExpired_forgets_slot (h : BookingSlot) (u : string)
        (a : App) :
  heldSlot (client a) = Some h ->
  user (client a) = Some u ->
  let a' := exec handleSlotExpired a in
  heldSlot (client a') = None /\
  selectedSlot (client a') = None /\
  filter is_update (emitted handleSlotExpired a)
  = [release_request (id h) u] /\
  In (ev_toast "Slot Expired") (emitted handleSlotExpired a) /\
  (next_fault (world a) = false ->
   forall r, In r (rows (world a')) -> id r = id h -> held_by r <> Some u) /\
  (next_fault (world a) = true -> rows (world a') = rows (world a)).
Proof.
  intros Hh Hu a'.
  assert (Ea : a' = with_event (ev_toast "Slot Expired")
                      (exec fetchAvailableSlots
                         (forgotten (exec (releaseSlot (id h) u) a)))).
  { subst a'. unfold exec at 1. rewrite (handleSlotExpired_run h u a Hh Hu).
    reflexivity. }
  destruct (fetchAvailableSlots_frame
              (forgotten (exec (releaseSlot (id h) u) a)))
    as [R [_ [H1 [H2 [new [L K]]]]]].
  assert (Erows : rows (world a')
                  = rows (world (exec (releaseSlot (id h) u) a))).
  { rewrite Ea. simpl. rewrite R. reflexivity. }
  assert (Eem : emitted handleSlotExpired a
                = release_request (id h) u
                  :: ((if next_fault (world a)
                       then [ev_console_error "Error releasing slot:"]
                       else [])
                      ++ new ++ [ev_toast "Slot Expired"])).
  { apply emitted_intro. fold a'. rewrite Ea. simpl. rewrite L. simpl.
    unfold exec. rewrite releaseSlot_eq.
    destruct (next_fault (world a)); simpl;
      rewrite <- ?app_assoc; reflexivity. }
  split; [| split; [| split; [| split; [| split]]]].
  - rewrite Ea. simpl. rewrite H1. reflexivity.
  - rewrite Ea. simpl. rewrite H2. reflexivity.
  - rewrite Eem. simpl. rewrite !filter_app, (no_update_filter new K).
    destruct (next_fault (world a)); reflexivity.
  - rewrite Eem. right. apply in_or_app. right.
    apply in_or_app. right. left. reflexivity.
  - intros F r Hin Hid Hr. rewrite Erows in Hin. unfold exec in Hin.
    rewrite releaseSlot_eq, F in Hin. simpl in Hin.
    apply update_rows_in in Hin. destruct Hin as [r0 [Hin0 E]].
    destruct (matches_all [eq_id (id h); eq_held_by u] r0) eqn:M; subst r.
    + discriminate Hr.
    + simpl in M, Hid. rewrite Hid, String.eqb_refl, Hr in M.
      simpl in M. rewrite String.eqb_refl in M. discriminate M.
  - intro F. rewrite Erows. unfold exec. rewrite releaseSlot_eq, F.
    reflexivity.
Qed.

(** A, holding S, lets the countdown run out. *)
Lemma handleSlotExpired_forgets_slot_witness :
  heldSlot (client (exec handleSlotExpired
                         (advance_clock 421000 Scenario.acquired))) = None.
Proof.
  exact (proj1 (handleSlotExpired_forgets_slot
                  Scenario.slot_S "A"
                  (advance_clock 421000 Scenario.acquired)
                  eq_refl eq_refl)).
Defined.

Lemma served_next_fault (n : nat) (a : App) :
  served_next (S n) a -> next_fault (world a) = false.
Proof.
  unfold served_next, next_fault. destruct (faults (world a)) as [|b fs].
  - reflexivity.
  - simpl. intro H. inversion H. assumption.
Qed.

Lemma served_next_tl (n : nat) (a b : App) :
  served_next (S n) a -> faults (world b) = tl (faults (world a)) ->
  served_next n b.
Proof.
  unfold served_next. intros H E. rewrite E.
  destruct (faults (world a)) as [|x fs]; simpl in *.
  - destruct n; constructor.
  - inversion H. assumption.
Qed.

Lemma holdSlot_served (s u : string) (a : App) :
  next_fault (world a) = false ->
  exec (holdSlot s u) a =
  {| client := client a;
     world := served_update (hold_patch u (now (world a)))
                            [eq_id s; eq_status available] (world a) |}.
Proof. intro F. unfold exec. rewrite holdSlot_eq, F. reflexivity. Qed.

Lemma releaseSlot_served (s u : string) (a : App) :
  next_fault (world a) = false ->
  exec (releaseSlot s u) a =
  {| client := client a;
     world := served_update release_patch [eq_id s; eq_held_by u]
                            (world a) |}.
Proof. intro F. unfold exec. rewrite releaseSlot_eq, F. reflexivity. Qed.

Lemma update_rows_none p fs rs :
  (forall r, In r rs -> matches_all fs r = false) ->
  update_rows p fs rs = rs.
Proof.
  intro H. unfold update_rows. rewrite <- (map_id rs) at 2.
  apply map_ext_in. intros r Hin. rewrite (H r Hin). reflexivity.
Qed.

(** Selecting again the slot the page already remembers as held, with the
    store serving the request, sends no release but one hold, and the page
    announces the reservation in any case.  What the hold does depends on
    the row in the store: a row of that id that is not available, such as
    the user's own running hold, is left as it is, so its deadline is not
    extended; a row of that id that is available, as after a failed switch,
    is taken for the user with a fresh deadline of seven minutes. *)
Theorem reselecting_remembered_slot
        (slot h : BookingSlot) (u : string) (a : App) :
  user (client a) = Some u ->
  heldSlot (client a) = Some h ->
  id h = id slot ->
  next_fault (world a) = false ->
  let a' := exec (handleSlotSelect slot) a in
  emitted (handleSlotSelect slot) a
  = [hold_request (id slot) u (now (world a)); ev_toast "Slot Reserved"] /\
  heldSlot (client a') = Some slot /\
  selectedSlot (client a') = Some slot /\
  forall i r,
    nth_error (rows (world a)) i = Some r ->
    (id r = id slot -> status r = available ->
     exists r',
       nth_error (rows (world a')) i = Some r' /\
       status r' = held /\ held_by r' = Some u /\
       hold_expires_at r' = Some (now (world a) + 7 * 60 * 1000)) /\
    (status r <> available -> nth_error (rows (world a')) i = Some r) /\
    (id r <> id slot -> nth_error (rows (world a')) i = Some r).
Proof.
  intros Hu Hh Hid F a'.
  assert (E1 : released_first slot u a = a).
  { unfold released_first. rewrite Hh, Hid, String.eqb_refl. reflexivity. }
  assert (Ea : a' = with_event (ev_toast "Slot Reserved")
                      (reserved slot (exec (holdSlot (id slot) u) a))).
  { subst a'. unfold exec at 1. rewrite (handleSlotSelect_run slot u a Hu).
    cbv zeta. rewrite E1, F. reflexivity. }
  rewrite (holdSlot_served _ _ _ F) in Ea.
  split; [| split; [| split]].
  - apply emitted_intro. fold a'. rewrite Ea. simpl.
    rewrite <- app_assoc. reflexivity.
  - rewrite Ea. reflexivity.
  - rewrite Ea. reflexivity.
  - intros i r Hi. rewrite Ea. simpl.
    rewrite (update_rows_nth _ _ _ _ _ Hi). simpl.
    split; [| split].
    + intros Hr Hst. rewrite Hr, String.eqb_refl, Hst. simpl.
      eexists. split; [reflexivity |]. simpl. repeat split.
    + intro Hst. destruct (status r); try congruence;
        rewrite andb_false_r; reflexivity.
    + intro Hr. apply String.eqb_neq in Hr. rewrite Hr. reflexivity.
Qed.

(** A holds S and clicks S again five minutes later: the deadline written
    at acquisition stays. *)
Lemma reselecting_remembered_slot_witness :
  nth_error
    (rows (world (exec (handleSlotSelect Scenario.slot_S)
                       (advance_clock 300000 Scenario.acquired)))) 0
  = Some (Scenario.held_until Scenario.slot_S "A" 420000).
Proof.
  refine (proj1 (proj2
            (proj2 (proj2 (proj2
               (reselecting_remembered_slot
                  Scenario.slot_S Scenario.slot_S "A"
                  (advance_clock 300000 Scenario.acquired)
                  eq_refl eq_refl eq_refl eq_refl)))
               0%nat (Scenario.held_until Scenario.slot_S "A" 420000)
               eq_refl)) _).
  discriminate.
Defined.

(** Holding a free slot and releasing it again restores the table exactly,
    provided the table satisfies the slot invariant and the user held no row
    of that id before. *)
Theorem hold_then_release_restores (s u : string) (a : App) :
  store_inv a ->
  (forall r, In r (rows (world a)) -> id r = s -> held_by r <> Some u) ->
  served_next 2 a ->
  rows (world (exec (releaseSlot s u) (exec (holdSlot s u) a)))
  = rows (world a).
Proof.
  intros Hinv Hnone Hs.
  pose proof (served_next_fault _ _ Hs) as F.
  rewrite (holdSlot_served _ _ _ F).
  rewrite releaseSlot_served.
  2:{ apply (served_next_fault 0). eapply served_next_tl; [exact Hs |].
      reflexivity. }
  simpl. unfold update_rows. rewrite map_map.
  rewrite <- (map_id (rows (world a))) at 2.
  apply map_ext_in. intros r Hin.
  assert (Hr : slot_inv r).
  { unfold store_inv in Hinv. rewrite Forall_forall in Hinv.
    apply Hinv, Hin. }
  simpl. destruct (String.eqb_spec (id r) s) as [E | E]; simpl.
  - destruct (status r) eqn:St; simpl.
    + rewrite E, !String.eqb_refl. simpl.
      pose proof (slot_inv_not_held r Hr) as Hh.
      rewrite St in Hh. specialize (Hh ltac:(discriminate)).
      destruct Hr as [[_ Hd] _].
      destruct (hold_expires_at r) as [d|] eqn:Ed.
      * exfalso. rewrite Hh in Hd. apply Hd; [discriminate | reflexivity].
      * destruct r; simpl in *. subst. reflexivity.
    + rewrite E, String.eqb_refl. simpl.
      destruct (opt_string_is (held_by r) u) eqn:O; [| reflexivity].
      apply opt_string_is_eq in O. exfalso. exact (Hnone r Hin E O).
    + rewrite E, String.eqb_refl. simpl.
      destruct (opt_string_is (held_by r) u) eqn:O; [| reflexivity].
      apply opt_string_is_eq in O. exfalso. exact (Hnone r Hin E O).
    + rewrite E, String.eqb_refl. simpl.
      destruct (opt_string_is (held_by r) u) eqn:O; [| reflexivity].
      apply opt_string_is_eq in O. exfalso. exact (Hnone r Hin E O).
  - apply String.eqb_neq in E. rewrite E. reflexivity.
Qed.

Lemma hold_then_release_restores_witness :
  rows (world (exec (releaseSlot "S" "A")
                    (exec (holdSlot "S" "A") Scenario.fresh)))
  = rows (world Scenario.fresh).
Proof.
  apply (hold_then_release_restores "S" "A" Scenario.fresh).
  - unfold store_inv. simpl.
    repeat constructor; apply slot_invb_spec; reflexivity.
  - intros r [<- | []] _. discriminate.
  - unfold served_next. simpl. constructor.
Defined.

Lemma getAvailableSlots_result_sound p d a l :
  result (getAvailableSlots p d) a = Ok l ->
  Forall (fun r => In r (rows (world a)) /\ provider_id r = p /\
                   date r = d /\ status r = available) l.
Proof.
  unfold result. rewrite getAvailableSlots_run. simpl.
  intro H. injection H as <-. apply query_result_sound.
Qed.

(** Once the store has served [holdSlot] for a slot id, no query for
    available slots lists a row of that id any more, whoever asks and for
    whichever provider and date. *)
Theorem held_slot_not_listed (s u p : string) (d : Z) (a : App)
        (l : list BookingSlot) :
  next_fault (world a) = false ->
  result (getAvailableSlots p d) (exec (holdSlot s u) a) = Ok l ->
  Forall (fun r => id r <> s) l.
Proof.
  intros F H. apply getAvailableSlots_result_sound in H.
  eapply Forall_impl; [| exact H]. simpl.
  intros r [Hin [_ [_ Hst]]] Hid.
  rewrite (holdSlot_served _ _ _ F) in Hin. simpl in Hin.
  apply update_rows_in in Hin. destruct Hin as [r0 [_ E]].
  destruct (matches_all [eq_id s; eq_status available] r0) eqn:M; subst r.
  - discriminate Hst.
  - simpl in M. rewrite Hid, String.eqb_refl, Hst in M. discriminate M.
Qed.

(** A takes S while T is free too; the day's slots are asked for. *)
Lemma held_slot_not_listed_witness :
  Forall (fun r => id r <> "S") [Scenario.slot_T].
Proof.
  exact (held_slot_not_listed "S" "A" "P" Scenario.march_1 two_free
                              [Scenario.slot_T] eq_refl eq_refl).
Defined.

(** After the holder's release has been served, a served query for the
    provider and date of the slot lists it again, available and without
    holder. *)
Theorem released_slot_listed_again (s u : string) (r : BookingSlot)
        (a : App) :
  In r (rows (world a)) ->
  id r = s ->
  held_by r = Some u ->
  served_next 2 a ->
  exists l r',
    result (getAvailableSlots (provider_id r) (date r))
           (exec (releaseSlot s u) a) = Ok l /\
    In r' l /\ id r' = s /\ status r' = available /\ held_by r' = None /\
    hold_expires_at r' = None.
Proof.
  intros Hin Hid Hh Hs.
  pose proof (served_next_fault _ _ Hs) as F.
  rewrite (releaseSlot_served _ _ _ F).
  unfold result. rewrite getAvailableSlots_run. simpl.
  unfold query_result.
  assert (F2 : next_fault
                 (served_update release_patch [eq_id s; eq_held_by u]
                                (world a)) = false).
  { apply (served_next_fault 0
             {| client := client a;
                world := served_update release_patch
                           [eq_id s; eq_held_by u] (world a) |}).
    eapply served_next_tl; [exact Hs | reflexivity]. }
  rewrite F2. eexists. exists (apply_patch release_patch r).
  split; [reflexivity |]. split; [| simpl; repeat split; exact Hid].
  eapply Permutation_in; [apply Permutation_sym, select_rows_perm |].
  apply filter_In. split.
  - simpl. unfold update_rows. apply in_map_iff. exists r.
    split; [| exact Hin]. simpl.
    rewrite Hid, String.eqb_refl, Hh. simpl. rewrite String.eqb_refl.
    reflexivity.
  - apply matches_query_filters. repeat split.
Qed.

(** A, holding S, releases it; the day's slots are asked for again. *)
Lemma released_slot_listed_again_witness :
  exists l r',
    result (getAvailableSlots "P" Scenario.march_1)
           (exec (releaseSlot "S" "A") Scenario.acquired) = Ok l /\
    In r' l /\ id r' = "S" /\ status r' = available /\ held_by r' = None /\
    hold_expires_at r' = None.
Proof.
  apply (released_slot_listed_again
           "S" "A" (Scenario.held_until Scenario.slot_S "A" 420000)
           Scenario.acquired).
  - left. reflexivity.
  - reflexivity.
  - reflexivity.
  - unfold served_next. simpl. constructor.
Defined.

(** Handing a slot over: when A holds a free slot, releases it, and B then
    holds it, all served by the store, the row ends up held by B with B's
    deadline of seven minutes from the clock of B's request. *)
Theorem release_lets_next_user_hold (s ua ub : string) (i : nat)
        (r : BookingSlot) (t : Z) (a : App) :
  nth_error (rows (world a)) i = Some r ->
  id r = s ->
  status r = available ->
  served_next 3 a ->
  let a1 := exec (releaseSlot s ua) (exec (holdSlot s ua) a) in
  let a2 := exec (holdSlot s ub) (advance_clock t a1) in
  result (holdSlot s ub) (advance_clock t a1) = Ok true /\
  exists r',
    nth_error (rows (world a2)) i = Some r' /\
    status r' = held /\ held_by r' = Some ub /\
    hold_expires_at r' = Some (t + 7 * 60 * 1000).
Proof.
  intros Hi Hid Hst Hs a1 a2.
  pose proof (served_next_fault _ _ Hs) as F0.
  assert (S1 : served_next 2 (exec (holdSlot s ua) a)).
  { eapply served_next_tl; [exact Hs |].
    rewrite (holdSlot_served _ _ _ F0). reflexivity. }
  pose proof (served_next_fault _ _ S1) as F1.
  assert (S2 : served_next 1 (advance_clock t a1)).
  { eapply served_next_tl; [exact S1 |]. subst a1.
    rewrite (releaseSlot_served _ _ _ F1). reflexivity. }
  pose proof (served_next_fault _ _ S2) as F2.
  split.
  - rewrite holdSlot_true_iff_served, F2. reflexivity.
  - subst a2. rewrite (holdSlot_served _ _ _ F2). simpl.
    subst a1. rewrite (releaseSlot_served _ _ _ F1). simpl.
    rewrite (holdSlot_served _ _ _ F0). simpl.
    erewrite update_rows_nth;
      [| erewrite update_rows_nth;
         [| erewrite update_rows_nth; [| exact Hi]; reflexivity];
         reflexivity].
    subst s. simpl. rewrite !String.eqb_refl, Hst. simpl.
    rewrite !String.eqb_refl. simpl.
    eexists. split; [reflexivity |]. simpl. repeat split.
Qed.

(** The spec scenario: A takes S and gives it back; B takes it a minute
    later. *)
Lemma release_lets_next_user_hold_witness :
  exists r',
    nth_error
      (rows (world
         (exec (holdSlot "S" "B")
               (advance_clock 60000
                  (exec (releaseSlot "S" "A")
                        (exec (holdSlot "S" "A") Scenario.fresh))))))
      0 = Some r' /\
    status r' = held /\ held_by r' = Some "B" /\
    hold_expires_at r' = Some (60000 + 7 * 60 * 1000).
Proof.
  refine (proj2 (release_lets_next_user_hold
                   "S" "A" "B" 0 Scenario.slot_S 60000 Scenario.fresh
                   eq_refl eq_refl eq_refl _)).
  unfold served_next. simpl. constructor.
Defined.

Lemma query_events_toasts p d w : filter is_toast (query_events p d w) = [].
Proof. unfold query_events. destruct (next_fault w); reflexivity. Qed.

(** [fetchAvailableSlots] never fails and never shows its error notice,
    whatever the store does, and always switches the loading flag off.  A
    first request that fails is in effect retried: the page shows what the
    second request returns, all matching slots if it is served and the empty
    list if it fails too. *)
Theorem fetchAvailableSlots_retries_silently (p : string) (d : Z) (a : App) :
  truthy (providerId (client a)) = Some p ->
  selectedDate (client a) = Some d ->
  let a' := exec fetchAvailableSlots a in
  result fetchAvailableSlots a = Ok tt /\
  loading (client a') = false /\
  filter is_toast (emitted fetchAvailableSlots a) = [] /\
  (forall later, faults (world a) = true :: true :: later ->
                 availableSlots (client a') = [] /\
                 faults (world a') = later) /\
  (forall later, faults (world a) = true :: false :: later ->
                 Permutation (availableSlots (client a'))
                             (filter (matches_all (query_filters p d))
                                     (rows (world a))) /\
                 faults (world a') = later).
Proof.
  intros Hp Hd a'. subst a'. unfold exec.
  rewrite (emitted_fetchAvailableSlots p d a Hp Hd).
  rewrite (fetchAvailableSlots_run p d a Hp Hd). simpl.
  split; [apply fetchAvailableSlots_result |].
  split; [reflexivity |]. split; [| split].
  - unfold fetched_events. destruct (query_result p d (world a));
      rewrite ?filter_app, !query_events_toasts; reflexivity.
  - intros later F.
    unfold fetched_slots, fetched_world, query_result, query_world,
      next_fault.
    rewrite F. simpl. rewrite ?F. simpl. rewrite ?F. split; reflexivity.
  - intros later F.
    unfold fetched_slots, fetched_world, query_result, query_world,
      next_fault.
    rewrite F. simpl. rewrite ?F. simpl. rewrite ?F.
    split; [apply select_rows_perm | reflexivity].
Qed.

(** The store is unreachable when the page asks for the slots of the day. *)
Lemma fetchAvailableSlots_retries_silently_witness :
  filter is_toast (emitted fetchAvailableSlots Scenario.offline) = [] /\
  loading (client (exec fetchAvailableSlots Scenario.offline)) = false.
Proof.
  destruct (fetchAvailableSlots_retries_silently
              "P" Scenario.march_1 Scenario.offline eq_refl eq_refl)
    as [_ [H2 [H3 _]]].
  split; [exact H3 | exact H2].
Defined.

(* ------------------------------------------------------------------ *)
(** ** Further properties of [verify-payment] *)

Lemma substring_whole (s : string) :
  String.substring 0 (String.length s) s = s.
Proof. induction s as [|c s IH]; simpl; [| rewrite IH]; reflexivity. Qed.

Lemma substring_0_length (n : nat) (s : string) :
  (String.length (String.substring 0 n s) <= n)%nat.
Proof.
  revert s. induction n as [|n IH]; intros [|c s]; simpl; try lia.
  specialize (IH s). lia.
Qed.

Lemma substring_0_prefix (n : nat) (s : string) :
  String.prefix (String.substring 0 n s) s = true.
Proof.
  revert s. induction n as [|n IH]; intros [|c s]; simpl; try reflexivity.
  destruct (Ascii.ascii_dec c c) as [_ | N]; [apply IH | contradiction].
Qed.

Lemma bearer_token (tok : string) :
  VerifyPayment.replace_first "Bearer " "" ("Bearer " ++ tok) = tok.
Proof.
  simpl. replace (String.prefix "" tok) with true
    by (destruct tok; reflexivity).
  rewrite Nat.sub_0_r. apply substring_whole.
Qed.

(** For a header of the form [Bearer <token>] the user is looked up by the
    token alone: an unknown token is answered "User not authenticated", and
    for a known user with a paid session the reply carries the clock, the
    first eight characters of the user id and the session id. *)
Theorem bearer_token_identifies_user
        (sv : VerifyPayment.Services) (t : Z) (req : VerifyPayment.Request)
        (tok : string) :
  VerifyPayment.method req <> "OPTIONS" ->
  VerifyPayment.authorization req = Some ("Bearer " ++ tok) ->
  (VerifyPayment.auth_getUser sv tok = None ->
   VerifyPayment.serve sv t req
   = VerifyPayment.failed "User not authenticated") /\
  (forall uid sid key,
     VerifyPayment.auth_getUser sv tok = Some uid ->
     truthy (VerifyPayment.sessionId req) = Some sid ->
     truthy (VerifyPayment.stripe_secret_key sv) = Some key ->
     VerifyPayment.sessions_retrieve sv sid = Some "paid" ->
     VerifyPayment.serve sv t req
     = VerifyPayment.verified t (String.substring 0 8 uid) sid).
Proof.
  intros Hm Ha. apply String.eqb_neq in Hm.
  unfold VerifyPayment.serve. rewrite Hm, Ha.
  change (truthy (Some ("Bearer " ++ tok))) with (Some ("Bearer " ++ tok)).
  cbv beta iota zeta. rewrite bearer_token. split.
  - intro Hu. rewrite Hu. reflexivity.
  - intros uid sid key Hu Hs Hk Hp. rewrite Hu, Hs, Hk, Hp. reflexivity.
Qed.

Lemma bearer_token_identifies_user_witness :
  VerifyPayment.serve one_paid_session 1700000000000 (verify_request "cs_1")
  = VerifyPayment.verified 1700000000000 "user-012" "cs_1".
Proof.
  refine (proj2 (bearer_token_identifies_user
                   one_paid_session 1700000000000 (verify_request "cs_1")
                   "tok-1" _ eq_refl)
                "user-0123456789" "cs_1" "sk_test"
                eq_refl eq_refl eq_refl eq_refl).
  discriminate.
Defined.

(** What a [verified] reply tells: it carries the clock of the call, the
    requested session, which the payment provider reports as paid, and a
    fragment of at most eight characters that is a prefix of the id of the
    user behind the presented header. *)
Theorem verified_reply_fields
        (sv : VerifyPayment.Services) (t : Z) (req : VerifyPayment.Request)
        (t' : Z) (u' sid' : string) :
  VerifyPayment.serve sv t req = VerifyPayment.verified t' u' sid' ->
  t' = t /\
  truthy (VerifyPayment.sessionId req) = Some sid' /\
  VerifyPayment.sessions_retrieve sv sid' = Some "paid" /\
  (String.length u' <= 8)%nat /\
  exists header uid,
    VerifyPayment.authorization req = Some header /\
    VerifyPayment.auth_getUser sv
      (VerifyPayment.replace_first "Bearer " "" header) = Some uid /\
    String.prefix u' uid = true.
Proof.
  unfold VerifyPayment.serve.
  destruct (String.eqb (VerifyPayment.method req) "OPTIONS");
    [discriminate |].
  destruct (VerifyPayment.authorization req) as [header|];
    [| discriminate].
  simpl. destruct (String.eqb header ""); [discriminate |].
  destruct (VerifyPayment.auth_getUser sv _) as [uid|] eqn:Eu;
    [| discriminate].
  destruct (truthy (VerifyPayment.sessionId req)) as [sid|];
    [| discriminate].
  destruct (truthy (VerifyPayment.stripe_secret_key sv)); [| discriminate].
  destruct (VerifyPayment.sessions_retrieve sv sid) as [st|] eqn:Es;
    [| discriminate].
  destruct (String.eqb_spec st "paid") as [Ep | Ep]; [| discriminate].
  intro H. injection H as <- <- <-. subst st.
  split; [reflexivity |]. split; [reflexivity |]. split; [exact Es |].
  split; [apply substring_0_length |].
  exists header, uid. split; [reflexivity |]. split; [exact Eu |].
  apply substring_0_prefix.
Qed.

Lemma verified_reply_fields_witness :
  (String.length "user-012" <= 8)%nat.
Proof.
  exact (proj1 (proj2 (proj2 (proj2
           (verified_reply_fields
              one_paid_session 1700000000000 (verify_request "cs_1")
              1700000000000 "user-012" "cs_1" eq_refl))))).
Defined.

Lemma serve_cases
      (sv : VerifyPayment.Services) (t : Z) (req : VerifyPayment.Request) :
  (VerifyPayment.method req = "OPTIONS" /\
   VerifyPayment.serve sv t req = VerifyPayment.preflight) \/
  (VerifyPayment.method req <> "OPTIONS" /\
   ((exists msg, VerifyPayment.serve sv t req = VerifyPayment.failed msg) \/
    (exists st sid,
       VerifyPayment.serve sv t req = VerifyPayment.not_paid st /\
       st <> "paid" /\
       truthy (VerifyPayment.sessionId req) = Some sid /\
       VerifyPayment.sessions_retrieve sv sid = Some st) \/
    (exists c u sid,
       VerifyPayment.serve sv t req = VerifyPayment.verified c u sid))).
Proof.
  unfold VerifyPayment.serve.
  destruct (String.eqb_spec (VerifyPayment.method req) "OPTIONS") as [E | E];
    [left; split; [exact E | reflexivity] | right; split; [exact E |]].
  destruct (truthy (VerifyPayment.authorization req)) as [header|];
    [| eauto].
  destruct (VerifyPayment.auth_getUser sv _) as [uid|]; [| eauto].
  destruct (truthy (VerifyPayment.sessionId req)) as [sid|]; [| eauto].
  destruct (truthy (VerifyPayment.stripe_secret_key sv)); [| eauto].
  destruct (VerifyPayment.sessions_retrieve sv sid) as [st|] eqn:Es;
    [| eauto].
  destruct (String.eqb_spec st "paid") as [Ep | Ep].
  - right. right. eauto.
  - right. left. exists st, sid. repeat split; assumption.
Qed.

Lemma verify_payment_unpaid_iff
      (sv : VerifyPayment.Services) (t : Z) (req : VerifyPayment.Request)
      (st : string) :
  VerifyPayment.serve sv t req = VerifyPayment.not_paid st <->
  session_unpaid sv req st.
Proof.
  unfold session_unpaid. split.
  - unfold VerifyPayment.serve.
    destruct (String.eqb_spec (VerifyPayment.method req) "OPTIONS")
      as [E | E]; [discriminate |].
    destruct (truthy (VerifyPayment.authorization req)) as [header|];
      [| discriminate].
    destruct (VerifyPayment.auth_getUser sv _) as [uid|] eqn:Eu;
      [| discriminate].
    destruct (truthy (VerifyPayment.sessionId req)) as [sid|];
      [| discriminate].
    destruct (truthy (VerifyPayment.stripe_secret_key sv)) as [key|];
      [| discriminate].
    destruct (VerifyPayment.sessions_retrieve sv sid) as [st'|] eqn:Es;
      [| discriminate].
    destruct (String.eqb_spec st' "paid") as [Ep | Ep]; [discriminate |].
    intro H. injection H as <-. split; [exact E |].
    exists header, uid, sid, key. repeat split; assumption.
  - intros [Hm [header [uid [sid [key [Ha [Hu [Hs [Hk [Hr Hn]]]]]]]]]].
    apply String.eqb_neq in Hm, Hn.
    unfold VerifyPayment.serve. rewrite Hm, Ha. cbv beta iota zeta.
    rewrite Hu, Hs, Hk, Hr, Hn. reflexivity.
Qed.

(** The HTTP status of [verify-payment] is decided by the request and the
    services as follows: 200 exactly for a preflight and for an
    authenticated caller with a paid session; 400 exactly when every step up
    to the session lookup succeeds and the session is not paid, and the reply
    then echoes the status reported by the payment provider; 500 in every
    remaining case, in particular for a request whose credentials are
    missing or empty, which is told that no authorization header was
    provided. *)
Theorem verify_payment_status
        (sv : VerifyPayment.Services) (t : Z) (req : VerifyPayment.Request) :
  let reply := VerifyPayment.serve sv t req in
  (VerifyPayment.http_status reply = 200 <->
   VerifyPayment.method req = "OPTIONS" \/ payment_verified sv req) /\
  (VerifyPayment.http_status reply = 400 <->
   exists st, session_unpaid sv req st) /\
  (forall st, session_unpaid sv req st ->
              reply = VerifyPayment.not_paid st) /\
  (VerifyPayment.http_status reply = 500 <->
   VerifyPayment.method req <> "OPTIONS" /\
   ~ payment_verified sv req /\
   ~ (exists st, session_unpaid sv req st)) /\
  (VerifyPayment.method req <> "OPTIONS" ->
   truthy (VerifyPayment.authorization req) = None ->
   reply = VerifyPayment.failed "No authorization header provided").
Proof.
  intro reply.
  pose proof (verify_payment_success_iff sv t req) as Hs. fold reply in Hs.
  pose proof (serve_cases sv t req) as Hc. fold reply in Hc.
  assert (H200 : VerifyPayment.http_status reply = 200 <->
                 VerifyPayment.method req = "OPTIONS" \/
                 payment_verified sv req).
  { split.
    - intro H.
      destruct Hc as [[E _] | [E [[msg Hr] | [[st [sid [Hr _]]]
                                             | [c [u [sid Hr]]]]]]].
      + left. exact E.
      + rewrite Hr in H. discriminate H.
      + rewrite Hr in H. discriminate H.
      + right. apply Hs. rewrite Hr. reflexivity.
    - intros [E | Hv].
      + destruct Hc as [[_ Hr] | [E' _]];
          [rewrite Hr; reflexivity | contradiction].
      + apply Hs in Hv. destruct reply; try discriminate Hv; reflexivity. }
  assert (H400 : VerifyPayment.http_status reply = 400 <->
                 exists st, session_unpaid sv req st).
  { split.
    - intro H. destruct reply as [| c u sid | st | msg] eqn:Er;
        try discriminate H.
      exists st. apply (verify_payment_unpaid_iff sv t req st). exact Er.
    - intros [st Hu]. apply (verify_payment_unpaid_iff sv t req st) in Hu.
      subst reply. rewrite Hu. reflexivity. }
  split; [exact H200 |]. split; [exact H400 |]. split; [| split].
  - intros st Hu. apply (verify_payment_unpaid_iff sv t req st). exact Hu.
  - split.
    + intro H. split; [| split].
      * intro E. assert (H2 : VerifyPayment.http_status reply = 200)
          by (apply H200; left; exact E).
        rewrite H in H2. discriminate H2.
      * intro Hv. assert (H2 : VerifyPayment.http_status reply = 200)
          by (apply H200; right; exact Hv).
        rewrite H in H2. discriminate H2.
      * intro Hu. apply H400 in Hu. rewrite H in Hu. discriminate Hu.
    + intros [Hm [Hv Hu]].
      destruct reply as [| c u sid | st | msg] eqn:Er.
      * exfalso. destruct Hc as [[E _] | [_ [[m Hr] | [[s1 [s2 [Hr _]]]
                                                     | [c [u [s Hr]]]]]]];
          [contradiction | discriminate Hr | discriminate Hr
           | discriminate Hr].
      * exfalso. apply Hv, Hs. reflexivity.
      * exfalso. apply Hu, H400. reflexivity.
      * reflexivity.
  - intros Hm Ha. subst reply. unfold VerifyPayment.serve.
    apply String.eqb_neq in Hm. rewrite Hm, Ha. reflexivity.
Qed.

(** The known user asks about the session that is not paid. *)
Lemma verify_payment_status_witness :
  VerifyPayment.serve one_paid_session 0 (verify_request "cs_2")
  = VerifyPayment.not_paid "unpaid".
Proof.
  apply (proj1 (proj2 (proj2 (verify_payment_status
                                one_paid_session 0
                                (verify_request "cs_2"))))).
  split; [discriminate |].
  exists "Bearer tok-1", "user-0123456789", "cs_2", "sk_test".
  repeat split. discriminate.
Defined.

(* ------------------------------------------------------------------ *)
(** ** The rest of the hook *)

Lemma insert_by_perm {A} (key : A -> Z) (x : A) (l : list A) :
  Permutation (insert_by key x l) (x :: l).
Proof.
  induction l as [|y rest IH]; simpl.
  - apply Permutation_refl.
  - destruct (key x <? key y).
    + apply Permutation_refl.
    + eapply perm_trans; [apply perm_skip, IH | apply perm_swap].
Qed.

Lemma sort_by_perm {A} (key : A -> Z) (l : list A) :
  Permutation (sort_by key l) l.
Proof.
  induction l as [|x rest IH]; simpl.
  - apply perm_nil.
  - eapply perm_trans; [apply insert_by_perm | apply perm_skip, IH].
Qed.

Lemma insert_by_sorted {A} (key : A -> Z) (x : A) (l : list A) :
  StronglySorted (ascending key) l ->
  StronglySorted (ascending key) (insert_by key x l).
Proof.
  induction 1 as [|y rest Hs IH Hy]; simpl.
  - constructor; constructor.
  - destruct (Z.ltb_spec (key x) (key y)) as [Hlt | Hge].
    + constructor; [constructor; assumption |].
      constructor; [unfold ascending; lia |].
      eapply Forall_impl; [| exact Hy].
      unfold ascending. intros z Hz. lia.
    + constructor; [exact IH |].
      eapply Permutation_Forall;
        [apply Permutation_sym, insert_by_perm |].
      constructor; [exact Hge | exact Hy].
Qed.

Lemma sort_by_sorted {A} (key : A -> Z) (l : list A) :
  StronglySorted (ascending key) (sort_by key l).
Proof.
  induction l as [|x rest IH]; simpl.
  - constructor.
  - apply insert_by_sorted, IH.
Qed.

Lemma hook_served_fault (n : nat) (st : Hook.State) :
  hook_served (S n) st ->
  Hook.faults st = [] \/ exists later, Hook.faults st = false :: later.
Proof.
  unfold hook_served. destruct (Hook.faults st) as [|b later].
  - left. reflexivity.
  - simpl. intro H. inversion H; subst. right. eauto.
Qed.

Lemma hook_served_head (n : nat) (st st2 : Hook.State) :
  hook_served (S n) st -> Hook.faults st2 = Hook.faults st ->
  hook_served 1 st2.
Proof.
  unfold hook_served. intros H E. rewrite E.
  destruct (Hook.faults st) as [|b later]; simpl in *.
  - constructor.
  - inversion H; subst. repeat constructor.
Qed.

Lemma hook_served_tail (n : nat) (st st2 : Hook.State) :
  hook_served (S n) st -> Hook.faults st2 = tl (Hook.faults st) ->
  hook_served n st2.
Proof.
  unfold hook_served. intros H E. rewrite E.
  destruct (Hook.faults st) as [|b later]; simpl in *.
  - destruct n; constructor.
  - inversion H; subst. assumption.
Qed.

Lemma call_served q effect st :
  hook_served 1 st ->
  Hook.call q effect st =
  (false,
   {| Hook.tables := effect (Hook.tables st);
      Hook.faults := tl (Hook.faults st);
      Hook.requests := Hook.requests st ++ [q];
      Hook.toasts := Hook.toasts st; Hook.console := Hook.console st;
      Hook.loading := Hook.loading st;
      Hook.timeSlots := Hook.timeSlots st |}).
Proof.
  intro H. unfold Hook.call.
  destruct (hook_served_fault _ _ H) as [E | [later E]]; rewrite E;
    reflexivity.
Qed.

Lemma call_failed q effect st later :
  Hook.faults st = true :: later ->
  Hook.call q effect st =
  (true,
   {| Hook.tables := Hook.tables st; Hook.faults := later;
      Hook.requests := Hook.requests st ++ [q];
      Hook.toasts := Hook.toasts st; Hook.console := Hook.console st;
      Hook.loading := Hook.loading st;
      Hook.timeSlots := Hook.timeSlots st |}).
Proof. intro E. unfold Hook.call. rewrite E. reflexivity. Qed.

Lemma call_frame q effect st :
  Hook.toasts (snd (Hook.call q effect st)) = Hook.toasts st /\
  Hook.console (snd (Hook.call q effect st)) = Hook.console st /\
  Hook.timeSlots (snd (Hook.call q effect st)) = Hook.timeSlots st /\
  Hook.requests (snd (Hook.call q effect st))
  = (Hook.requests st ++ [q])%list.
Proof.
  unfold Hook.call. destruct (Hook.faults st) as [|[|] later];
    repeat split.
Qed.

Lemma delete_rows_in fs rs r :
  In r (delete_rows fs rs) <-> In r rs /\ matches_all fs r = false.
Proof.
  unfold delete_rows. rewrite filter_In, negb_true_iff. reflexivity.
Qed.

Lemma filter_complement {A} (f : A -> bool) (l : list A) :
  filter f (filter (fun x => negb (f x)) l) = [].
Proof.
  induction l as [|x l IH]; simpl; [reflexivity |].
  destruct (f x) eqn:M; simpl; [| rewrite M]; exact IH.
Qed.

Lemma select_after_delete p d rs :
  select_rows (query_filters p d) (delete_rows (query_filters p d) rs) = [].
Proof.
  unfold select_rows, delete_rows. rewrite filter_complement. reflexivity.
Qed.

(** Revoking a day's availability removes, once both requests are served,
    exactly the provider's available slots of that day: held, booked and
    blocked slots and the slots of other providers and days all stay, and a
    served query for the day then lists nothing.  This holds whatever the
    store does with the upserted entry. *)
Theorem availability_removal_spares_reservations
        (upsert : Hook.AvailabilityInput -> list ProviderAvailability.t ->
                  list ProviderAvailability.t)
        (generate : string -> Z -> Z -> Hook.Tables -> list BookingSlot)
        (p : string) (d : Z) (sel : list string) (st : Hook.State) :
  hook_served 2 st ->
  let st' := Hook.setProviderAvailability upsert generate p d false sel st in
  (forall r,
     In r (Hook.booking_slots (Hook.tables st')) <->
     In r (Hook.booking_slots (Hook.tables st)) /\
     ~ (provider_id r = p /\ date r = d /\ status r = available)) /\
  (forall a,
     rows (world a) = Hook.booking_slots (Hook.tables st') ->
     next_fault (world a) = false ->
     result (getAvailableSlots p d) a = Ok []) /\
  Hook.toasts st'
  = (Hook.toasts st ++ [Hook.toast_success "removed" d])%list /\
  Hook.loading st' = false.
Proof.
  intros Hs st'.
  assert (E : Hook.booking_slots (Hook.tables st')
              = delete_rows (query_filters p d)
                            (Hook.booking_slots (Hook.tables st))).
  { subst st'. unfold Hook.setProviderAvailability.
    rewrite call_served
      by (eapply hook_served_head; [exact Hs | reflexivity]).
    rewrite call_served; [reflexivity |].
    eapply hook_served_tail; [exact Hs | reflexivity]. }
  split; [| split; [| split]].
  - intro r. rewrite E, delete_rows_in.
    rewrite <- matches_query_filters.
    destruct (matches_all (query_filters p d) r); split;
      intros [H1 H2]; split; try assumption; try discriminate;
      try reflexivity.
    exfalso. apply H2. reflexivity.
  - intros a Hr F. unfold result. rewrite getAvailableSlots_run. simpl.
    unfold query_result. rewrite F, Hr, E, select_after_delete. reflexivity.
  - subst st'. unfold Hook.setProviderAvailability.
    rewrite call_served
      by (eapply hook_served_head; [exact Hs | reflexivity]).
    simpl. rewrite (proj1 (call_frame _ _ _)). reflexivity.
  - subst st'. unfold Hook.setProviderAvailability.
    destruct (Hook.call _ _ _) as [e s1]. reflexivity.
Qed.

(** P revokes 2025-03-01 while A holds S and T is free: S stays. *)
Lemma availability_removal_spares_reservations_witness :
  In (Scenario.held_until Scenario.slot_S "A" 420000)
     (Hook.booking_slots
        (Hook.tables
           (Hook.setProviderAvailability
              (fun _ l => l) (fun _ _ _ tb => Hook.booking_slots tb)
              "P" Scenario.march_1 false [] (hook_state [])))).
Proof.
  apply (proj1 (availability_removal_spares_reservations
                  (fun _ l => l) (fun _ _ _ tb => Hook.booking_slots tb)
                  "P" Scenario.march_1 [] (hook_state [])
                  ltac:(unfold hook_served; simpl; constructor))).
  split.
  - left. reflexivity.
  - intros [_ [_ H]]. discriminate H.
Defined.

(** The notice of [setProviderAvailability] follows the upsert alone.  When
    the upsert fails, nothing else is sent, no table changes and the user is
    told of the failure.  When the upsert is served and the request after it
    (the generation or the removal of slots) fails, the slots are as before
    and the user is told of a success all the same.  The loading flag is off
    at the end in either case. *)
Theorem availability_notice_follows_upsert
        (upsert : Hook.AvailabilityInput -> list ProviderAvailability.t ->
                  list ProviderAvailability.t)
        (generate : string -> Z -> Z -> Hook.Tables -> list BookingSlot)
        (p : string) (d : Z) (isAvailable : bool) (sel : list string)
        (later : list bool) (st : Hook.State) :
  let st' :=
    Hook.setProviderAvailability upsert generate p d isAvailable sel st in
  (Hook.faults st = true :: later ->
   Hook.tables st' = Hook.tables st /\
   Hook.requests st'
   = (Hook.requests st
      ++ [Hook.upsert_provider_availability
            {| Hook.in_provider_id := p; Hook.in_date := d;
               Hook.in_is_available := isAvailable;
               Hook.in_time_slots := sel |}])%list /\
   Hook.toasts st'
   = (Hook.toasts st
      ++ [Hook.toast_error "Failed to update availability"])%list /\
   Hook.loading st' = false) /\
  (Hook.faults st = false :: true :: later ->
   Hook.booking_slots (Hook.tables st')
   = Hook.booking_slots (Hook.tables st) /\
   Hook.toasts st'
   = (Hook.toasts st
      ++ [Hook.toast_success (if isAvailable then "set" else "removed")
                             d])%list /\
   Hook.loading st' = false).
Proof.
  intro st'. subst st'. unfold Hook.setProviderAvailability. split.
  - intro F. erewrite call_failed by (simpl; exact F). simpl.
    repeat split.
  - intro F. unfold Hook.call. simpl. rewrite F. simpl.
    destruct isAvailable; simpl; repeat split.
Qed.

(** The store drops the removal after serving the upsert. *)
Lemma availability_notice_follows_upsert_witness :
  Hook.toasts
    (Hook.setProviderAvailability
       (fun _ l => l) (fun _ _ _ tb => Hook.booking_slots tb)
       "P" Scenario.march_1 false [] (hook_state [false; true]))
  = [Hook.toast_success "removed" Scenario.march_1].
Proof.
  exact (proj1 (proj2 (proj2
           (availability_notice_follows_upsert
              (fun _ l => l) (fun _ _ _ tb => Hook.booking_slots tb)
              "P" Scenario.march_1 false [] [] (hook_state [false; true]))
           eq_refl))).
Defined.

(** [getProviderAvailability] answers with entries of the asked provider
    whose date lies in the closed range, in ascending order of date, and
    changes no table.  A served request answers with all of them; a range
    whose end precedes its start, or a store failure, gives the empty
    list. *)
Theorem getProviderAvailability_range
        (p : string) (s e : Z) (st : Hook.State) :
  let l := fst (Hook.getProviderAvailability p s e st) in
  let st' := snd (Hook.getProviderAvailability p s e st) in
  StronglySorted (ascending ProviderAvailability.date) l /\
  Forall (fun r => In r (Hook.provider_availability (Hook.tables st)) /\
                   ProviderAvailability.provider_id r = p /\
                   s <= ProviderAvailability.date r <= e) l /\
  Hook.tables st' = Hook.tables st /\
  (e < s -> l = []) /\
  (forall later, Hook.faults st = true :: later -> l = []) /\
  (hook_served 1 st ->
   Permutation l (filter (Hook.in_range p s e)
                         (Hook.provider_availability (Hook.tables st)))).
Proof.
  intros l st'. subst l st'. unfold Hook.getProviderAvailability.
  set (found := filter (Hook.in_range p s e)
                       (Hook.provider_availability (Hook.tables st))).
  assert (Hfound : Forall
            (fun r => In r (Hook.provider_availability (Hook.tables st)) /\
                      ProviderAvailability.provider_id r = p /\
                      s <= ProviderAvailability.date r <= e) found).
  { apply Forall_forall. intros r Hr. subst found.
    apply filter_In in Hr. destruct Hr as [Hin Hm]. split; [exact Hin |].
    unfold Hook.in_range in Hm.
    rewrite !andb_true_iff, String.eqb_eq, !Z.leb_le in Hm. tauto. }
  assert (Hempty : e < s -> found = []).
  { intro Hlt. destruct found as [|r rest] eqn:E; [reflexivity |].
    inversion Hfound as [|? ? [_ [_ Hr]] _]. lia. }
  unfold Hook.call.
  destruct (Hook.faults st) as [|[|] later] eqn:F; simpl.
  - repeat split; try discriminate.
    + apply sort_by_sorted.
    + eapply Permutation_Forall;
        [apply Permutation_sym, sort_by_perm | exact Hfound].
    + intro Hlt. rewrite (Hempty Hlt). reflexivity.
    + intros _. apply sort_by_perm.
  - repeat split; try constructor.
    intro H. unfold hook_served in H. rewrite F in H. simpl in H.
    inversion H; discriminate.
  - repeat split; try discriminate.
    + apply sort_by_sorted.
    + eapply Permutation_Forall;
        [apply Permutation_sym, sort_by_perm | exact Hfound].
    + intro Hlt. rewrite (Hempty Hlt). reflexivity.
    + intros _. apply sort_by_perm.
Qed.

(** P's entries between 2025-03-01 and 2025-03-03. *)
Lemma getProviderAvailability_range_witness :
  Permutation
    (fst (Hook.getProviderAvailability "P" 20148 20150 (hook_state [])))
    [ProviderAvailability.mk "a2" "P" 20150 true ["t1"];
     ProviderAvailability.mk "a1" "P" 20148 true ["t1"; "t2"]].
Proof.
  apply (proj2 (proj2 (proj2 (proj2 (proj2
           (getProviderAvailability_range
              "P" 20148 20150 (hook_state []))))))).
  unfold hook_served. simpl. constructor.
Defined.

(** [fetchTimeSlots] replaces the hook's list by the active time slots in
    ascending display order when the store serves the request and shows no
    notice; on a store failure the list it had is kept and the user is told
    that fetching failed. *)
Theorem fetchTimeSlots_keeps_list_on_failure (st : Hook.State) :
  let st' := Hook.fetchTimeSlots st in
  Hook.tables st' = Hook.tables st /\
  (hook_served 1 st ->
   StronglySorted (ascending TimeSlot.display_order) (Hook.timeSlots st') /\
   Permutation (Hook.timeSlots st')
               (filter TimeSlot.is_active
                       (Hook.time_slots (Hook.tables st))) /\
   Hook.toasts st' = Hook.toasts st) /\
  (forall later, Hook.faults st = true :: later ->
   Hook.timeSlots st' = Hook.timeSlots st /\
   Hook.toasts st'
   = (Hook.toasts st
      ++ [Hook.toast_error "Failed to fetch time slots"])%list).
Proof.
  intro st'. subst st'. unfold Hook.fetchTimeSlots. split; [| split].
  - unfold Hook.call. destruct (Hook.faults st) as [|[|] later];
      reflexivity.
  - intro Hs. rewrite call_served by exact Hs. simpl.
    split; [apply sort_by_sorted | split; [apply sort_by_perm |]].
    reflexivity.
  - intros later F. erewrite call_failed by exact F. simpl.
    split; reflexivity.
Qed.

(** The hook is mounted and the store serves the request. *)
Lemma fetchTimeSlots_keeps_list_on_failure_witness :
  map TimeSlot.id (Hook.timeSlots (Hook.fetchTimeSlots (hook_state [])))
  = ["t1"; "t2"] /\
  Hook.toasts (Hook.fetchTimeSlots (hook_state [true]))
  = [Hook.toast_error "Failed to fetch time slots"].
Proof.
  split.
  - reflexivity.
  - exact (proj2 (proj2 (proj2 (fetchTimeSlots_keeps_list_on_failure
                                  (hook_state [true])))
                        [] eq_refl)).
Defined.

(* ------------------------------------------------------------------ *)
(** ** Creating a checkout session *)

Lemma obj_get_set (k k' v : string) (o : Checkout.Obj) :
  Checkout.obj_get k (Checkout.obj_set k' v o) =
  if String.eqb k' k then Some v else Checkout.obj_get k o.
Proof.
  induction o as [|[k0 v0] rest IH]; simpl.
  - reflexivity.
  - destruct (String.eqb_spec k0 k') as [E0 | E0]; simpl.
    + subst k0. destruct (String.eqb k' k); reflexivity.
    + destruct (String.eqb_spec k0 k) as [E1 | E1].
      * subst k0. apply String.eqb_neq in E0.
        rewrite String.eqb_sym, E0. reflexivity.
      * exact IH.
Qed.

Lemma obj_get_app (k : string) (o1 o2 : Checkout.Obj) :
  Checkout.obj_get k (o1 ++ o2)%list =
  match Checkout.obj_get k o1 with
  | Some v => Some v
  | None => Checkout.obj_get k o2
  end.
Proof.
  induction o1 as [|[k0 v0] rest IH]; simpl.
  - reflexivity.
  - destruct (String.eqb k0 k); [reflexivity | exact IH].
Qed.

(** In [{ ...base, ...extra }] the last entry of a key in [extra] wins over
    [base]. *)
Lemma obj_get_spread (k : string) (base extra : Checkout.Obj) :
  Checkout.obj_get k (Checkout.spread base extra) =
  match Checkout.obj_get k (rev extra) with
  | Some v => Some v
  | None => Checkout.obj_get k base
  end.
Proof.
  unfold Checkout.spread. revert base.
  induction extra as [|[k0 v0] rest IH]; intro base; simpl.
  - reflexivity.
  - rewrite IH, obj_get_app, obj_get_set. simpl.
    destruct (Checkout.obj_get k (rev rest)); [reflexivity |].
    destruct (String.eqb k0 k); reflexivity.
Qed.

Lemma session_params_inr {Number} (round_cents : Number -> Z)
      (sv : Checkout.Services) (req : Checkout.Request Number)
      (ps : Checkout.SessionParams) :
  Checkout.session_params round_cents sv req = inr ps ->
  let who := Checkout.identify sv (Checkout.authorization req) in
  let cur := match Checkout.currency (Checkout.body req) with
             | Some c => c
             | None => "usd"
             end in
  Checkout.truthy_number (Checkout.amount (Checkout.body req)) <> None /\
  cart_of req <> [] /\
  Checkout.line_items ps
  = map (Checkout.lineItem round_cents cur) (cart_of req) /\
  Checkout.session_metadata ps
  = Checkout.spread (identity_fields who) (metadata_of req) /\
  Checkout.customer_email ps
  = match truthy (Checkout.customer ps) with
    | Some _ => None
    | None => Some (Checkout.userEmail who)
    end /\
  (Checkout.customer ps <> None -> Checkout.isAuthenticated who = true).
Proof.
  unfold Checkout.session_params, cart_of, metadata_of, identity_fields.
  destruct (Checkout.truthy_number (Checkout.amount (Checkout.body req)));
    [| discriminate].
  destruct (Checkout.cartItems (Checkout.body req)) as [[|first others]|];
    try discriminate.
  destruct (truthy (Checkout.stripe_secret_key sv)); [| discriminate].
  destruct (Checkout.isAuthenticated
              (Checkout.identify sv (Checkout.authorization req))) eqn:A.
  - destruct (Checkout.customers_list sv _) as [e | [|c cs]];
      try discriminate;
      intro H; injection H as <-; simpl;
      repeat split; try discriminate; try reflexivity.
  - intro H. injection H as <-. simpl.
    repeat split; try discriminate; try reflexivity.
    intro H. contradiction.
Qed.

(** The line items handed to the payment provider mirror the cart, item by
    item and in order: same name, the price in cents, and the quantity of
    the item, where a missing or zero quantity is charged as one.  No line
    item has quantity zero. *)
Theorem line_items_mirror_cart {Number} (round_cents : Number -> Z)
        (sv : Checkout.Services) (req : Checkout.Request Number)
        (ps : Checkout.SessionParams) :
  Checkout.session_params round_cents sv req = inr ps ->
  Forall2
    (fun item li =>
       Checkout.li_name li = Checkout.serviceName item /\
       Checkout.unit_amount li = round_cents (Checkout.price item) /\
       Checkout.li_quantity li <> 0 /\
       (forall q, Checkout.quantity item = Some q -> q <> 0 ->
                  Checkout.li_quantity li = q) /\
       (Checkout.quantity item = None \/ Checkout.quantity item = Some 0 ->
        Checkout.li_quantity li = 1))
    (cart_of req) (Checkout.line_items ps) /\
  cart_of req <> [].
Proof.
  intro H. apply session_params_inr in H.
  destruct H as [_ [Hne [Hl _]]]. split; [| exact Hne].
  rewrite Hl. clear Hl Hne.
  induction (cart_of req) as [|item rest IH]; simpl; constructor;
    [| exact IH].
  simpl. unfold Checkout.truthy_number.
  destruct (Checkout.quantity item) as [q|]; simpl.
  - destruct (Z.eqb_spec q 0) as [E | E]; repeat split;
      try lia; try reflexivity.
    + intros q' Hq Hq'. injection Hq as <-. contradiction.
    + intros q' Hq _. injection Hq as <-. reflexivity.
    + intros [Hq | Hq]; [discriminate | injection Hq as Hq; contradiction].
  - repeat split; try lia. intros q Hq. discriminate.
Qed.

Lemma line_items_mirror_cart_witness :
  exists ps,
    Checkout.session_params dollars shop (checkout_request None) = inr ps /\
    map Checkout.li_quantity (Checkout.line_items ps) = [2; 1] /\
    Forall2
      (fun item li => Checkout.li_name li = Checkout.serviceName item)
      two_services (Checkout.line_items ps).
Proof.
  eexists. split; [reflexivity |]. split; [reflexivity |].
  eapply Forall2_impl;
    [| exact (proj1 (line_items_mirror_cart
                       dollars shop (checkout_request None) _ eq_refl))].
  simpl. intros item li [H _]. exact H.
Defined.

(** The payment provider is given a stored customer or an e-mail address,
    never both and never neither: the address is left out exactly when a
    customer with a non-empty id was found, and otherwise it is the caller's
    address.  A customer is only ever attached for an authenticated
    caller. *)
Theorem customer_or_email {Number} (round_cents : Number -> Z)
        (sv : Checkout.Services) (req : Checkout.Request Number)
        (ps : Checkout.SessionParams) :
  Checkout.session_params round_cents sv req = inr ps ->
  let who := Checkout.identify sv (Checkout.authorization req) in
  (Checkout.customer_email ps = None <->
   exists c, Checkout.customer ps = Some c /\ c <> "") /\
  (forall e, Checkout.customer_email ps = Some e ->
             e = Checkout.userEmail who) /\
  (Checkout.customer ps <> None -> Checkout.isAuthenticated who = true).
Proof.
  intro H. apply session_params_inr in H.
  destruct H as [_ [_ [_ [_ [He Hc]]]]]. intro who. fold who in He, Hc.
  split; [| split; [| exact Hc]].
  - rewrite He. unfold truthy.
    destruct (Checkout.customer ps) as [c|].
    + destruct (String.eqb_spec c "") as [E | E]; split.
      * discriminate.
      * intros [c' [Hc' Hn]]. injection Hc' as <-. contradiction.
      * intros _. exists c. split; [reflexivity | exact E].
      * reflexivity.
    + split; [discriminate | intros [c [Hc' _]]; discriminate].
  - intros e Hs. rewrite He in Hs.
    destruct (truthy (Checkout.customer ps)); [discriminate |].
    injection Hs as <-. reflexivity.
Qed.

Lemma customer_or_email_witness :
  exists ps,
    Checkout.session_params dollars shop
      (checkout_request (Some "Bearer tok-1")) = inr ps /\
    Checkout.customer ps = Some "cus_1" /\
    Checkout.customer_email ps = None.
Proof.
  eexists. split; [reflexivity |]. split; [reflexivity |].
  apply (proj1 (customer_or_email
                  dollars shop (checkout_request (Some "Bearer tok-1"))
                  _ eq_refl)).
  exists "cus_1". split; [reflexivity | discriminate].
Defined.

Lemma identify_auth_fails sv header :
  auth_fails sv header -> Checkout.identify sv (Some header) = Checkout.guest.
Proof.
  unfold auth_fails, Checkout.identify. simpl.
  destruct (String.eqb header ""); [reflexivity |].
  destruct (Checkout.auth_getUser sv _) as [| | uid email];
    try reflexivity.
  intro H. rewrite H. reflexivity.
Qed.

(** Credentials that do not identify a user with an e-mail address never
    fail the request: it is answered exactly as if no credentials had been
    sent, and what reaches the payment provider names the guest address and
    no customer. *)
Theorem failed_auth_checks_out_as_guest {Number} (round_cents : Number -> Z)
        (sv : Checkout.Services) (req : Checkout.Request Number)
        (header : string) :
  Checkout.authorization req = Some header ->
  auth_fails sv header ->
  Checkout.serve round_cents sv req
  = Checkout.serve round_cents sv (without_authorization req) /\
  forall ps,
    Checkout.session_params round_cents sv req = inr ps ->
    Checkout.customer ps = None /\
    Checkout.customer_email ps = Some "guest@example.com".
Proof.
  intros Ha Hf.
  assert (E : Checkout.session_params round_cents sv req
              = Checkout.session_params round_cents sv
                  (without_authorization req)).
  { unfold Checkout.session_params, without_authorization.
    cbn [Checkout.authorization Checkout.body Checkout.origin].
    rewrite Ha, (identify_auth_fails sv header Hf). reflexivity. }
  split.
  - unfold Checkout.serve. rewrite E. reflexivity.
  - intros ps H. rewrite E in H. unfold Checkout.session_params in H.
    simpl in H.
    destruct (Checkout.truthy_number _); [| discriminate].
    destruct (Checkout.cartItems _) as [[|first others]|];
      try discriminate.
    destruct (truthy (Checkout.stripe_secret_key sv)); [| discriminate].
    injection H as <-. simpl. repeat split.
Qed.

Lemma failed_auth_checks_out_as_guest_witness :
  Checkout.serve dollars shop (checkout_request (Some "Bearer expired"))
  = Checkout.serve dollars shop (checkout_request None).
Proof.
  exact (proj1 (failed_auth_checks_out_as_guest
                  dollars shop (checkout_request (Some "Bearer expired"))
                  "Bearer expired" eq_refl I)).
Defined.

(** The [amount] of the request only gates it.  A missing or zero amount,
    or a missing or empty cart, is answered with the error about missing
    parameters whatever the services would say; any two non-zero amounts get
    the same answer, since the session is priced from the cart items
    alone. *)
Theorem amount_only_gates {Number} (round_cents : Number -> Z)
        (sv : Checkout.Services) (req : Checkout.Request Number) :
  (Checkout.method req <> "OPTIONS" ->
   Checkout.truthy_number (Checkout.amount (Checkout.body req)) = None \/
   cart_of req = [] ->
   Checkout.serve round_cents sv req
   = Checkout.failed "Missing required parameters: amount and cartItems") /\
  (forall a1 a2, a1 <> 0 -> a2 <> 0 ->
     Checkout.serve round_cents sv (with_amount (Some a1) req)
     = Checkout.serve round_cents sv (with_amount (Some a2) req)).
Proof.
  split.
  - intros Hm H. apply String.eqb_neq in Hm.
    unfold Checkout.serve, Checkout.session_params, cart_of in *.
    rewrite Hm.
    destruct H as [H | H].
    + rewrite H. reflexivity.
    + destruct (Checkout.truthy_number _); [| reflexivity].
      destruct (Checkout.cartItems (Checkout.body req)) as [[|x l]|];
        try reflexivity.
      discriminate H.
  - intros a1 a2 H1 H2.
    unfold Checkout.serve, Checkout.session_params, with_amount. simpl.
    apply Z.eqb_neq in H1, H2. rewrite H1, H2. reflexivity.
Qed.

(** The cart page sends the total with the service fee; the answer is the
    one for the bare total. *)
Lemma amount_only_gates_witness :
  Checkout.serve dollars shop
    (with_amount (Some 25725) (checkout_request None))
  = Checkout.serve dollars shop
      (with_amount (Some 24500) (checkout_request None)).
Proof.
  apply (proj2 (amount_only_gates dollars shop (checkout_request None)));
    discriminate.
Defined.

(** The metadata stored with the session is the function's own identity
    fields overridden by the metadata of the request: for every key the last
    entry the client sent wins, also for [user_id], [user_email] and
    [is_authenticated]; only keys the client left out keep the value derived
    from the credentials. *)
Theorem client_metadata_overrides_identity {Number}
        (round_cents : Number -> Z) (sv : Checkout.Services)
        (req : Checkout.Request Number) (ps : Checkout.SessionParams)
        (k : string) :
  Checkout.session_params round_cents sv req = inr ps ->
  Checkout.obj_get k (Checkout.session_metadata ps) =
  match Checkout.obj_get k (rev (metadata_of req)) with
  | Some v => Some v
  | None =>
      Checkout.obj_get k
        (identity_fields
           (Checkout.identify sv (Checkout.authorization req)))
  end.
Proof.
  intro H. apply session_params_inr in H.
  destruct H as [_ [_ [_ [Hm _]]]]. rewrite Hm. apply obj_get_spread.
Qed.

(** User 1 checks out with a metadata entry naming user 2. *)
Lemma client_metadata_overrides_identity_witness :
  exists ps,
    Checkout.session_params dollars shop
      (checkout_request (Some "Bearer tok-1")) = inr ps /\
    Checkout.obj_get "user_id" (Checkout.session_metadata ps)
    = Some "user-2" /\
    Checkout.obj_get "user_email" (Checkout.session_metadata ps)
    = Some "a@example.com".
Proof.
  eexists. split; [reflexivity |]. split.
  - exact (client_metadata_overrides_identity
             dollars shop (checkout_request (Some "Bearer tok-1")) _
             "user_id" eq_refl).
  - exact (client_metadata_overrides_identity
             dollars shop (checkout_request (Some "Bearer tok-1")) _
             "user_email" eq_refl).
Defined.

(* ------------------------------------------------------------------ *)
(** ** Checking out from the cart *)

Ltac outcome_fields :=
  eexists; split; [reflexivity |];
  split; [reflexivity |]; split; [reflexivity |]; split; [reflexivity |];
  split; [reflexivity |];
  split; [intro href; split | split].

(** [handleCheckout] never asks for a checkout session with an empty cart:
    it only shows the empty-cart notice.  Otherwise it sends one request,
    carrying the items as they are, the amount in cents, the currency and
    the three metadata entries, and does exactly one more thing, decided by
    the answer: a redirect to the returned address when the service reports
    success with a non-empty address; the "checkout failed" notice, with the
    service's error text or the default one, when it answers without
    success or without address; the "payment system error" notice when the
    call raises.  Being signed in or not changes neither the amount nor the
    items sent. *)
Theorem handleCheckout_outcomes
        (Number Item : Type) (amount_in_cents : Number -> Z)
        (fee_text : Number -> string)
        (service : CartPage.CheckoutRequest Item ->
                   string + CartPage.CheckoutResult)
        (itemCount : Z) (items : list Item) (totalAmount : Number)
        (isAuthenticated : bool) :
  let effects :=
    CartPage.handleCheckout Number amount_in_cents fee_text Item service
                            itemCount items totalAmount isAuthenticated in
  (itemCount = 0 \/ items = [] ->
   effects = [CartPage.show CartPage.cart_empty]) /\
  (itemCount <> 0 -> items <> [] ->
   exists request outcome,
     effects = [CartPage.create_session request; outcome] /\
     CartPage.cartItems Item request = items /\
     CartPage.amount Item request = amount_in_cents totalAmount /\
     CartPage.currency Item request = "usd" /\
     CartPage.metadata Item request
     = [("source", "cart");
        ("isAuthenticated", Checkout.string_of_bool isAuthenticated);
        ("serviceFee", fee_text totalAmount)] /\
     (forall href,
        outcome = CartPage.redirect href <->
        href <> "" /\
        exists result,
          service request = inr result /\
          CartPage.success result = true /\
          CartPage.url result = Some href) /\
     (forall message,
        service request = inl message ->
        outcome = CartPage.show
                    (CartPage.payment_system_error
                       ("Error: "
                        ++ CartPage.or_text (Some message)
                                            "Unexpected error occurred"))) /\
     (forall result,
        service request = inr result ->
        CartPage.success result = false \/
        truthy (CartPage.url result) = None ->
        outcome = CartPage.show
                    (CartPage.checkout_failed
                       (CartPage.or_text
                          (CartPage.error result)
                          "Unable to start checkout. Please try again.")))) /\
  (itemCount <> 0 -> items <> [] ->
   forall r, In (CartPage.create_session r) effects ->
   forall r', In (CartPage.create_session r')
                 (CartPage.handleCheckout
                    Number amount_in_cents fee_text Item service
                    itemCount items totalAmount (negb isAuthenticated)) ->
   CartPage.amount Item r' = CartPage.amount Item r /\
   CartPage.cartItems Item r' = CartPage.cartItems Item r).
Proof.
  intro effects. subst effects. unfold CartPage.handleCheckout.
  split; [| split].
  - intros [H | H]; subst.
    + reflexivity.
    + simpl. rewrite orb_true_r. reflexivity.
  - intros Hc Hi. apply Z.eqb_neq in Hc. rewrite Hc.
    destruct items as [|x l]; [contradiction |]. simpl.
    match goal with |- context [service ?r] => set (rq := r) end.
    exists rq.
    destruct (service rq) as [message | result] eqn:Es.
    { outcome_fields.
      - discriminate.
      - intros [_ [res [H _]]]. discriminate H.
      - intros m H. injection H as <-. reflexivity.
      - intros res H. discriminate H. }
    destruct (CartPage.success result) eqn:Hs.
    2:{ outcome_fields.
        - discriminate.
        - intros [_ [res [H [Hs' _]]]]. injection H as <-.
          rewrite Hs in Hs'. discriminate Hs'.
        - intros m H. discriminate H.
        - intros res H _. injection H as <-. reflexivity. }
    destruct (truthy (CartPage.url result)) as [u|] eqn:Hu.
    2:{ outcome_fields.
        - discriminate.
        - intros [Hn [res [H [_ Hurl]]]]. injection H as <-.
          rewrite Hurl in Hu. simpl in Hu.
          apply String.eqb_neq in Hn. rewrite Hn in Hu. discriminate Hu.
        - intros m H. discriminate H.
        - intros res H _. injection H as <-. reflexivity. }
    assert (Hurl : CartPage.url result = Some u /\ u <> "").
    { unfold truthy in Hu. destruct (CartPage.url result) as [v|];
        [| discriminate Hu].
      destruct (String.eqb_spec v "") as [E | E]; [discriminate Hu |].
      injection Hu as <-. split; [reflexivity | exact E]. }
    destruct Hurl as [Hurl Hne].
    outcome_fields.
    + intro H. injection H as <-. split; [exact Hne |].
      exists result. repeat split; assumption.
    + intros [_ [res [H [_ Hurl']]]]. injection H as <-.
      rewrite Hurl in Hurl'. injection Hurl' as <-. reflexivity.
    + intros m H. discriminate H.
    + intros res H [Hf | Hf]; injection H as <-.
      * rewrite Hs in Hf. discriminate Hf.
      * rewrite Hu in Hf. discriminate Hf.
  - intros Hc Hi. apply Z.eqb_neq in Hc. rewrite Hc.
    destruct items as [|x l]; [contradiction |]. simpl.
    intros r [Hr | Hr] r' [Hr' | Hr'].
    + injection Hr as <-. injection Hr' as <-. split; reflexivity.
    + exfalso. destruct (service _) as [m | res];
        [| destruct (if CartPage.success res
                     then truthy (CartPage.url res) else None)];
        destruct Hr' as [H | []]; discriminate H.
    + exfalso. destruct (service _) as [m | res];
        [| destruct (if CartPage.success res
                     then truthy (CartPage.url res) else None)];
        destruct Hr as [H | []]; discriminate H.
    + exfalso. destruct (service _) as [m | res];
        [| destruct (if CartPage.success res
                     then truthy (CartPage.url res) else None)];
        destruct Hr as [H | []]; discriminate H.
Qed.

(** A guest checks out a cart of one service. *)
Lemma handleCheckout_outcomes_witness :
  exists request,
    CartPage.handleCheckout Z (fun z => z) (fun _ => "2.00") string
                            always_pays 1 ["House Cleaning"] 7700 false
    = [CartPage.create_session request;
       CartPage.redirect "https://pay.example/cs_1"].
Proof.
  destruct (proj1 (proj2 (handleCheckout_outcomes
                            Z string (fun z => z) (fun _ => "2.00")
                            always_pays 1 ["House Cleaning"] 7700 false))
              ltac:(discriminate) ltac:(discriminate))
    as [request [outcome [E [_ [_ [_ [_ [H _]]]]]]]].
  exists request. rewrite E. f_equal. f_equal.
  apply H. split; [discriminate |].
  eexists. split; [reflexivity |]. split; reflexivity.
Defined.
